(** * queuectl: the job lifecycle engine of [queuectl.js]

    A shallow embedding of the persisted job table, the configuration
    table and the operations that act on them: [initDb], [enqueue],
    [dlq retry], [config set], the claim transaction [claimTx] and the
    body of [workerLoop], and the [recover] scan.

    Modelling conventions.
    - The [jobs] table is the list of its rows in rowid (insertion)
      order; the PRIMARY KEY on [id] is the invariant [pk].
    - A timestamp column holds the text [Date.prototype.toISOString]
      renders; a timestamp is modelled by the instant it denotes, in
      milliseconds since the epoch.  For the instants [toISOString]
      renders with a four-digit year the text is fixed-width, so the
      order of the texts is the order of the instants.
    - SQLite's [datetime(x)] renders an instant as
      [YYYY-MM-DD HH:MM:SS]: it drops the milliseconds.
    - JavaScript numbers are modelled by exact values: [Z] for the
      integer columns, [Q] for the backoff base and the delay; [NaN]
      is [None].  The literal [Infinity] and magnitudes at which [Date]
      has no valid time value are outside the model.
    - An operation reads the clock once, a worker's turn twice (when it
      claims and when the command has returned); the readings are
      arguments.  The executor, the uuid generator and the clock are the
      environment: they are arguments of the operations.
    - The command line is parsed before the operations: the payload of
      [enqueue] is the parsed JSON object, with text and integer fields,
      and [--stale-seconds] is an integer. *)

From Stdlib Require Import ZArith List String Ascii Bool Lia QArith Qround Qpower.
From Stdlib Require Import NArith Permutation Sorted DecimalString.
Import ListNotations.

Open Scope string_scope.
Open Scope list_scope.
Open Scope Z_scope.

(** ** JavaScript builtins used by the program *)

Module JS.

(** White space skipped by [parseInt] and [parseFloat]. *)
Definition isWhite (c : ascii) : bool :=
  match nat_of_ascii c with
  | 9%nat | 10%nat | 11%nat | 12%nat | 13%nat | 32%nat => true
  | _ => false
  end.

Fixpoint skipWhite (s : string) : string :=
  match s with
  | String c r => if isWhite c then skipWhite r else s
  | EmptyString => s
  end.

(** Value of a digit character, letters counting from ten. *)
Definition digitVal (c : ascii) : option Z :=
  let n := Z.of_nat (nat_of_ascii c) in
  if (48 <=? n) && (n <=? 57) then Some (n - 48)
  else if (97 <=? n) && (n <=? 122) then Some (n - 87)
  else if (65 <=? n) && (n <=? 90) then Some (n - 55)
  else None.

(** The longest prefix of digits of the radix, as a number; the rest of
    the text; [None] when the prefix is empty. *)
Fixpoint digits (radix : Z) (s : string) (acc : option Z) : option Z * string :=
  match s with
  | String c r =>
      match digitVal c with
      | Some d =>
          if d <? radix
          then digits radix r (Some (match acc with
                                     | Some a => a * radix + d
                                     | None => d
                                     end))
          else (acc, s)
      | None => (acc, s)
      end
  | EmptyString => (acc, s)
  end.

Definition sign (s : string) : bool * string :=
  match s with
  | String "-" r => (true, r)
  | String "+" r => (false, r)
  | _ => (false, s)
  end.

(** [parseInt(s)] with no radix argument. *)
Definition parseInt (s : string) : option Z :=
  let '(neg, s2) := sign (skipWhite s) in
  let '(radix, s3) :=
    match s2 with
    | String "0" (String "x" r) => (16, r)
    | String "0" (String "X" r) => (16, r)
    | _ => (10, s2)
    end in
  match fst (digits radix s3 None) with
  | Some n => Some (if neg then - n else n)
  | None => None
  end.

(** Digits after the decimal point: numerator and power of ten. *)
Fixpoint fraction (s : string) (num : Z) (den : positive) (seen : bool)
  : Z * positive * bool * string :=
  match s with
  | String c r =>
      match digitVal c with
      | Some d =>
          if d <? 10
          then fraction r (num * 10 + d) (den * 10)%positive true
          else (num, den, seen, s)
      | None => (num, den, seen, s)
      end
  | EmptyString => (num, den, seen, s)
  end.

(** The exponent part [e[+-]digits]; zero when there is none. *)
Definition exponent (s : string) : Z :=
  let body r :=
    let '(neg, r2) := sign r in
    match fst (digits 10 r2 None) with
    | Some e => if neg then - e else e
    | None => 0
    end in
  match s with
  | String "e" r => body r
  | String "E" r => body r
  | _ => 0
  end.

(** [parseFloat(s)]: the longest prefix that is a decimal literal, as
    an exact number. *)
Definition parseFloat (s : string) : option Q :=
  let '(neg, s2) := sign (skipWhite s) in
  let '(ip, s3) := digits 10 s2 None in
  let '(num, den, seen, s4) :=
    match s3 with
    | String "." r => fraction r 0 1%positive false
    | _ => (0, 1%positive, false, s3)
    end in
  match ip, seen with
  | None, false => None
  | _, _ =>
      let i := match ip with Some i => i | None => 0 end in
      let m := (inject_Z i + (num # den))%Q in
      let v := (m * 10 ^ exponent s4)%Q in
      Some (if neg then (- v)%Q else v)
  end.

(** [new Date(x)] keeps the integer part of a time value. *)
Definition timeClip (x : Q) : Z :=
  if Qle_bool 0 x then Qfloor x else Qceiling x.

End JS.

(** ** The persistent store *)

Inductive State := pending | processing | failed | completed | dead.

Definition State_eqb (a b : State) : bool :=
  match a, b with
  | pending, pending | processing, processing | failed, failed
  | completed, completed | dead, dead => true
  | _, _ => false
  end.

(** A row of the [jobs] table. *)
Record Job := mkJob {
  id : string;
  command : string;
  state : State;
  attempts : Z;
  max_retries : Z;
  created_at : Z;
  updated_at : Z;
  available_at : option Z;
  last_error : option string
}.

(** The [config] table: rows [(key, value)], [key] the primary key. *)
Definition Config := list (string * string).

Record DB := mkDB { jobs : list Job; config : Config }.

Definition ids (t : list Job) : list string := map id t.

(** The PRIMARY KEY constraint of [jobs]. *)
Definition pk (t : list Job) : Prop := NoDup (ids t).

(** *** SQL statements over the tables *)

(** [UPDATE jobs SET ... WHERE p]: the table afterwards. *)
Definition update_where (p : Job -> bool) (f : Job -> Job) (t : list Job) : list Job :=
  map (fun j => if p j then f j else j) t.

(** The number of rows an [UPDATE ... WHERE p] changes ([res.changes]). *)
Definition changes (p : Job -> bool) (t : list Job) : Z :=
  Z.of_nat (List.length (filter p t)).

Definition has_id (i : string) (j : Job) : bool := String.eqb (id j) i.

(** [SELECT * FROM jobs WHERE id = ?] with [.get]. *)
Definition select_by_id (i : string) (t : list Job) : option Job :=
  find (has_id i) t.

(** [SELECT value FROM config WHERE key = ?] with [.get]. *)
Fixpoint select_value (key : string) (c : Config) : option string :=
  match c with
  | [] => None
  | (k, v) :: r => if String.eqb k key then Some v else select_value key r
  end.

(** [INSERT OR IGNORE INTO config]. *)
Definition insert_or_ignore (key value : string) (c : Config) : Config :=
  match select_value key c with
  | Some _ => c
  | None => c ++ [(key, value)]
  end.

(** [INSERT OR REPLACE INTO config]: the row of the key is deleted and
    the new one inserted. *)
Definition insert_or_replace (key value : string) (c : Config) : Config :=
  filter (fun kv => negb (String.eqb (fst kv) key)) c ++ [(key, value)].

(** SQLite's [datetime]: the instant cut to the whole second. *)
Definition datetime (t : Z) : Z := t / 1000.

(** ** initDb, getConfig *)

Definition initDb (db : DB) : DB :=
  mkDB (jobs db)
       (insert_or_ignore "max-retries" "3"
          (insert_or_ignore "backoff-base" "2" (config db))).

Definition emptyDb : DB := mkDB [] [].

Definition getConfig (db : DB) (key fallback : string) : string :=
  match select_value key (config db) with
  | Some value => value
  | None => fallback
  end.

(** [config set <key> <value>] *)
Definition config_set (key value : string) (db : DB) : DB :=
  mkDB (jobs db) (insert_or_replace key value (config db)).

(** ** enqueue *)

(** The parsed submission: each field may be missing. *)
Record Payload := mkPayload {
  job_id : option string;
  job_command : option string;
  job_max_retries : option Z
}.

(** A missing or empty text is falsy. *)
Definition truthy_text (o : option string) : option string :=
  match o with
  | Some s => if String.eqb s "" then None else Some s
  | None => None
  end.

(** A missing or zero number is falsy. *)
Definition truthy_num (o : option Z) : option Z :=
  match o with
  | Some n => if n =? 0 then None else Some n
  | None => None
  end.

Inductive EnqueueOutcome :=
| MissingCommand            (* console.error, process.exit(1) *)
| InsertFailed              (* the INSERT threw; caught and logged *)
| Enqueued (i : string).

(** [job.max_retries || parseInt(getConfig(db, 'max-retries', '3'))];
    [None] is NaN. *)
Definition resolve_max_retries (job : Payload) (db : DB) : option Z :=
  match truthy_num (job_max_retries job) with
  | Some m => Some m
  | None => JS.parseInt (getConfig db "max-retries" "3")
  end.

(** The action of [enqueue <json>] on the parsed payload.  [uuid] is the
    value [uuidv4()] would return.  The INSERT fails on an [id] already in
    the table (PRIMARY KEY) and on a NaN [max_retries], which is bound as
    NULL into a NOT NULL column. *)
Definition enqueue (uuid : string) (now : Z) (job : Payload) (db : DB)
  : EnqueueOutcome * DB :=
  let id :=
    match truthy_text (job_id job) with Some i => i | None => uuid end in
  match truthy_text (job_command job) with
  | None => (MissingCommand, db)
  | Some command =>
      match resolve_max_retries job db with
      | None => (InsertFailed, db)
      | Some max_retries =>
          if existsb (has_id id) (jobs db)
          then (InsertFailed, db)
          else (Enqueued id,
                mkDB (jobs db ++
                        [mkJob id command pending 0 max_retries
                               now now (Some now) None])
                     (config db))
      end
  end.

(** ** dlq retry *)

Inductive RetryOutcome := NotFound | Retried.

(** [UPDATE jobs SET attempts=0, state="pending", updated_at=?,
    available_at=? WHERE id = ?]; the double-quoted word names no column
    and is read as the text 'pending'. *)
Definition reset (now : Z) (j : Job) : Job :=
  mkJob (id j) (command j) pending 0 (max_retries j)
        (created_at j) now (Some now) (last_error j).

Definition dlq_retry (i : string) (now : Z) (db : DB) : RetryOutcome * DB :=
  match select_by_id i (jobs db) with
  | None => (NotFound, db)
  | Some _ =>
      (Retried, mkDB (update_where (has_id i) (reset now) (jobs db)) (config db))
  end.

(** ** The worker *)

(** What [exec] hands to its callback: the error, if any, and the text
    the command wrote to its standard error. *)
Inductive Code := CodeNum (n : Z) | CodeText (s : string).

Record ExecError := mkExecError {
  err_code : option Code;     (* exit status, or the name of a spawn error *)
  message : string
}.

Definition Shell := string -> option ExecError * string.

Record Result := mkResult {
  code : Code;
  stderr : string;
  error : option ExecError
}.

Definition truthy_code (o : option Code) : option Code :=
  match o with
  | Some (CodeNum n) => if n =? 0 then None else o
  | Some (CodeText s) => if String.eqb s "" then None else o
  | None => None
  end.

(** [code = error ? (error.code || 1) : 0] *)
Definition runCommand (exec : Shell) (cmd : string) : Result :=
  let '(error, stderr) := exec cmd in
  mkResult
    match error with
    | Some e => match truthy_code (err_code e) with
                | Some c => c
                | None => CodeNum 1
                end
    | None => CodeNum 0
    end
    stderr error.

(** [result.code === 0] *)
Definition succeeded (result : Result) : bool :=
  match code result with
  | CodeNum n => n =? 0
  | CodeText _ => false
  end.

(** [(result.error && result.error.message) ||
     (result.stderr && result.stderr.toString()) || 'error'] *)
Definition lastErr (result : Result) : string :=
  match truthy_text (option_map message (error result)) with
  | Some m => m
  | None => match truthy_text (Some (stderr result)) with
            | Some e => e
            | None => "error"
            end
  end.

(** [parseFloat(getConfig(db, 'backoff-base', '2')) || 2] *)
Definition backoffBase (db : DB) : Q :=
  match JS.parseFloat (getConfig db "backoff-base" "2") with
  | Some b => if Qeq_bool b 0 then 2%Q else b
  | None => 2%Q
  end.

(** [new Date(Date.now() + Math.pow(backoffBase, attempts) * 1000)] *)
Definition retryAt (base : Q) (attempts : Z) (now : Z) : Z :=
  let delay := (base ^ attempts)%Q in
  JS.timeClip (inject_Z now + delay * 1000)%Q.

Definition claimable (j : Job) : bool :=
  match state j with
  | pending | failed => true
  | _ => false
  end.

(** The WHERE clause of the candidate query. *)
Definition eligible (now : Z) (j : Job) : bool :=
  match state j with
  | pending => true
  | failed =>
      match available_at j with
      | Some a => datetime a <=? datetime now
      | None => false
      end
  | _ => false
  end.

(** [ORDER BY created_at LIMIT 1]: the first row of the least
    [created_at]. *)
Fixpoint oldest (t : list Job) : option Job :=
  match t with
  | [] => None
  | j :: r =>
      match oldest r with
      | Some k => if created_at k <? created_at j then Some k else Some j
      | None => Some j
      end
  end.

Definition claim_guard (i : string) (j : Job) : bool :=
  has_id i j && claimable j.

Definition set_processing (now : Z) (j : Job) : Job :=
  mkJob (id j) (command j) processing (attempts j) (max_retries j)
        (created_at j) now (available_at j) (last_error j).

(** The transaction [claimTx]: the claimed id (or null) and the table
    it leaves. *)
Definition claimTx (now : Z) (t : list Job) : option string * list Job :=
  match oldest (filter (eligible now) t) with
  | None => (None, t)
  | Some candidate =>
      let t' := update_where (claim_guard (id candidate)) (set_processing now) t in
      if changes (claim_guard (id candidate)) t =? 1
      then (Some (id candidate), t')
      else (None, t')
  end.

Definition set_completed (now : Z) (j : Job) : Job :=
  mkJob (id j) (command j) completed (attempts j) (max_retries j)
        (created_at j) now (available_at j) (last_error j).

Definition set_dead (attempts : Z) (now : Z) (err : string) (j : Job) : Job :=
  mkJob (id j) (command j) dead attempts (max_retries j)
        (created_at j) now (available_at j) (Some err).

Definition set_failed (attempts : Z) (availableAt now : Z) (err : string) (j : Job) : Job :=
  mkJob (id j) (command j) failed attempts (max_retries j)
        (created_at j) now (Some availableAt) (Some err).

(** The part of the loop body after [runCommand]: the UPDATE that
    records the result of [job]. *)
Definition record_result (now : Z) (db : DB) (job : Job) (result : Result) : list Job :=
  let backoffBase := backoffBase db in
  if succeeded result
  then update_where (has_id (id job)) (set_completed now) (jobs db)
  else
    let attempts := attempts job + 1 in
    let lastErr := lastErr result in
    if attempts >=? max_retries job
    then update_where (has_id (id job)) (set_dead attempts now lastErr) (jobs db)
    else
      let availableAt := retryAt backoffBase attempts now in
      update_where (has_id (id job))
        (set_failed attempts availableAt now lastErr) (jobs db).

Inductive Outcome := Idle | Skipped | Executed (i : string) (result : Result).

(** One turn of the [while (!stopped)] loop.  [now_claim] is the clock
    at the claim, [now_done] the clock when the command has returned.
    A null or empty [jobId] is falsy: the worker sleeps. *)
Definition workerTurn (exec : Shell) (now_claim now_done : Z) (db : DB)
  : Outcome * DB :=
  let '(jobId, t1) := claimTx now_claim (jobs db) in
  let db1 := mkDB t1 (config db) in
  match truthy_text jobId with
  | None => (Idle, db1)
  | Some jobId =>
      match select_by_id jobId t1 with
      | None => (Skipped, db1)
      | Some job =>
          let result := runCommand exec (command job) in
          (Executed (id job) result,
           mkDB (record_result now_done db1 job result) (config db))
      end
  end.

(** The loop: one turn for each pair of clock readings, until the stop
    flag is found set. *)
Fixpoint workerLoop (exec : Shell) (clock : list (Z * Z)) (db : DB) : list Outcome * DB :=
  match clock with
  | [] => ([], db)
  | (now_claim, now_done) :: rest =>
      let '(o, db1) := workerTurn exec now_claim now_done db in
      let '(os, db2) := workerLoop exec rest db1 in
      (o :: os, db2)
  end.

(** ** recover *)

Definition stale (staleThreshold : Z) (j : Job) : bool :=
  State_eqb (state j) processing && (updated_at j <=? staleThreshold).

(** [update.run('failed', availableAt, nowIso(), r.id)] with
    [SET state=?, attempts=attempts+1, available_at=?, updated_at=?]. *)
Definition set_failed_recovered (availableAt now : Z) (j : Job) : Job :=
  mkJob (id j) (command j) failed (attempts j + 1) (max_retries j)
        (created_at j) now (Some availableAt) (last_error j).

(** The body of [for (const r of rows)]. *)
Definition recover_row (db : DB) (now : Z) (t : list Job) (r : Job) : list Job :=
  let backoffBase := backoffBase db in
  let attempts := attempts r + 1 in
  if attempts >=? max_retries r
  then update_where (has_id (id r))
         (set_dead attempts now "stale-processing-recovered") t
  else
    let availableAt := retryAt backoffBase attempts now in
    update_where (has_id (id r)) (set_failed_recovered availableAt now) t.

(** [recover --stale-seconds n]: the rows selected and the store
    afterwards. *)
Definition recover (staleSeconds now : Z) (db : DB) : list Job * DB :=
  let staleThreshold := now - staleSeconds * 1000 in
  let rows := filter (stale staleThreshold) (jobs db) in
  (rows, mkDB (fold_left (recover_row db now) rows (jobs db)) (config db)).

(** ** The operations on the store *)

(** The commands that write to the store, and the two things a worker
    does to it: a whole turn, and a claim alone, which is all that is left
    of a turn when the worker dies while the command runs. *)
Inductive Op :=
| Init
| Enqueue (uuid : string) (now : Z) (job : Payload)
| DlqRetry (i : string) (now : Z)
| ConfigSet (key value : string)
| Claim (now : Z)
| Work (exec : Shell) (now_claim now_done : Z)
| Recover (staleSeconds now : Z).

Definition run (op : Op) (db : DB) : DB :=
  match op with
  | Init => initDb db
  | Enqueue uuid now job => snd (enqueue uuid now job db)
  | DlqRetry i now => snd (dlq_retry i now db)
  | ConfigSet key value => config_set key value db
  | Claim now => mkDB (snd (claimTx now (jobs db))) (config db)
  | Work exec now_claim now_done => snd (workerTurn exec now_claim now_done db)
  | Recover staleSeconds now => snd (recover staleSeconds now db)
  end.

(** ** Notions the statements use *)

(** The WHERE clause of the candidate query, spelled out. *)
Definition Eligible (now : Z) (j : Job) : Prop :=
  state j = pending \/
  (state j = failed /\
   exists a, available_at j = Some a /\ a / 1000 <= now / 1000).


(** What the UPDATE of [record_result] writes into a row. *)
Definition settle (now : Z) (db : DB) (job : Job) (result : Result) (j : Job) : Job :=
  if succeeded result then set_completed now j
  else if attempts job + 1 >=? max_retries job
       then set_dead (attempts job + 1) now (lastErr result) j
       else set_failed (attempts job + 1)
                       (retryAt (backoffBase db) (attempts job + 1) now)
                       now (lastErr result) j.

(** What the UPDATE issued for the selected row [r] writes into a row. *)
Definition recovered (db : DB) (now : Z) (r : Job) (j : Job) : Job :=
  if attempts r + 1 >=? max_retries r
  then set_dead (attempts r + 1) now "stale-processing-recovered" j
  else set_failed_recovered (retryAt (backoffBase db) (attempts r + 1) now) now j.

Definition recover_step (db : DB) (now : Z) (j r : Job) : Job :=
  if has_id (id r) j then recovered db now r j else j.

(** [op] is a failure transition of the job [i], whose row is [j]: a
    worker's turn that ran its command and saw it fail, or a recovery scan
    for which the row is a stale [processing] row. *)
Definition FailureOf (op : Op) (db : DB) (i : string) (j : Job) : Prop :=
  (exists exec now_claim now_done result,
     op = Work exec now_claim now_done /\
     fst (workerTurn exec now_claim now_done db) = Executed i result /\
     succeeded result = false) \/
  (exists staleSeconds now,
     op = Recover staleSeconds now /\
     state j = processing /\ updated_at j <= now - staleSeconds * 1000).

(** Claim transactions run one after the other, as the store
    serialises them: what each returns, and the table in the end. *)
Fixpoint claims (nows : list Z) (t : list Job) : list (option string) * list Job :=
  match nows with
  | [] => ([], t)
  | now :: rest =>
      let '(r, t1) := claimTx now t in
      let '(rs, t2) := claims rest t1 in
      (r :: rs, t2)
  end.

(** How many of the claims returned the id [i]. *)
Definition granted (i : string) (rs : list (option string)) : nat :=
  List.length
    (filter (fun r => match r with
                      | Some x => String.eqb x i
                      | None => false
                      end) rs).

(** The stores the operations build from the empty store. *)
Inductive reachable : DB -> Prop :=
| reach_empty : reachable emptyDb
| reach_run op db : reachable db -> reachable (run op db).

(** ** list, status, dlq list *)

(** The text the [state] column holds. *)
Definition state_name (s : State) : string :=
  match s with
  | pending => "pending"
  | processing => "processing"
  | failed => "failed"
  | completed => "completed"
  | dead => "dead"
  end.

(** [ORDER BY key]: rows of equal key stay in table order. *)
Fixpoint insert_by (key : Job -> Z) (j : Job) (l : list Job) : list Job :=
  match l with
  | [] => [j]
  | k :: r => if key j <=? key k then j :: l else k :: insert_by key j r
  end.

Definition order_by (key : Job -> Z) (l : list Job) : list Job :=
  fold_right (insert_by key) [] l.

(** What a listing command prints: a line of text, or a table. *)
Inductive Printed (A : Type) :=
| Message (text : string)
| Table (rows : list A).

Arguments Message {A} text.
Arguments Table {A} rows.

Definition print_rows {A} (nothing : string) (show : Job -> A) (rows : list Job)
  : Printed A :=
  match rows with
  | [] => Message nothing
  | _ => Table (map show rows)
  end.

Record ListRow := mkListRow {
  row_id : string;
  row_state : string;
  row_attempts : Z;
  row_cmd : string;
  row_available_at : option Z
}.

(** The rows [list] selects: [WHERE state = ?] when [--state] is given
    and not empty, then [ORDER BY created_at]. *)
Definition list_rows (state_opt : option string) (db : DB) : list Job :=
  match truthy_text state_opt with
  | Some s =>
      order_by created_at
        (filter (fun j => String.eqb (state_name (state j)) s) (jobs db))
  | None => order_by created_at (jobs db)
  end.

Definition list_cmd (state_opt : option string) (db : DB) : Printed ListRow :=
  print_rows "No jobs found."
    (fun r => mkListRow (id r) (state_name (state r)) (attempts r)
                        (command r) (available_at r))
    (list_rows state_opt db).




Definition count_state (s : State) (t : list Job) : Z :=
  Z.of_nat (List.length (filter (fun j => State_eqb (state j) s) t)).

(** [SELECT state, COUNT( * ) as cnt FROM jobs GROUP BY state], copied
    into the [summary] object: one entry for each state that has a row,
    in the order of the state texts. *)
Definition summary (db : DB) : list (string * Z) :=
  flat_map
    (fun s => if count_state s (jobs db) =? 0
              then []
              else [(state_name s, count_state s (jobs db))])
    [completed; dead; failed; pending; processing].

(** [summary[key]]: the property of that name, if the object has one. *)
Fixpoint property (key : string) (o : list (string * Z)) : option Z :=
  match o with
  | [] => None
  | (k, v) :: r => if String.eqb k key then Some v else property key r
  end.

(** ** The PID file *)

Definition newline : ascii := "010"%char.
Definition carriage_return : ascii := "013"%char.

(** [String.prototype.trim] *)
Fixpoint trimEnd (s : string) : string :=
  match s with
  | EmptyString => EmptyString
  | String c r =>
      let r' := trimEnd r in
      if JS.isWhite c && String.eqb r' "" then EmptyString else String c r'
  end.

Definition trim (s : string) : string := trimEnd (JS.skipWhite s).

(** [s.split('\n')] *)
Fixpoint split_newline (s : string) : list string :=
  match s with
  | EmptyString => [EmptyString]
  | String c r =>
      match split_newline r with
      | piece :: pieces =>
          if Ascii.eqb c newline
          then EmptyString :: piece :: pieces
          else String c piece :: pieces
      | [] => [String c EmptyString]
      end
  end.

(** [s.split(/\r?\n/)]: a carriage return just before a newline belongs
    to the separator. *)
Fixpoint split_lines (s : string) : list string :=
  match s with
  | EmptyString => [EmptyString]
  | String c r =>
      match split_lines r with
      | piece :: pieces =>
          if Ascii.eqb c newline
          then EmptyString :: piece :: pieces
          else if Ascii.eqb c carriage_return
                  && match r with
                     | String c' _ => Ascii.eqb c' newline
                     | EmptyString => false
                     end
               then piece :: pieces
               else String c piece :: pieces
      | [] => [String c EmptyString]
      end
  end.

(** [.filter(Boolean)] on texts *)
Definition nonempty (s : string) : bool := negb (String.eqb s "").

(** [l.join('\n')] *)
Fixpoint join_lines (l : list string) : string :=
  match l with
  | [] => EmptyString
  | [x] => x
  | x :: r => String.append x (String newline (join_lines r))
  end.

(** The decimal text of a process id. *)
Definition show_pid (pid : N) : string :=
  NilZero.string_of_uint (N.to_uint pid).

(** [Number.isFinite(opts.count) ? opts.count : 1]; [None] is a count
    that is missing or not a number. *)
Definition worker_count (count : option Z) : Z :=
  match count with
  | Some n => n
  | None => 1
  end.

(** [startWorkers(count)]: [fork k] is the pid of the child forked in
    turn [k]; [write_ok] tells whether [writeFileSync] succeeds.  The pids
    forked and the PID file afterwards. *)
Definition startWorkers (fork : nat -> N) (write_ok : bool) (count : Z)
    (pid_file : option string) : list N * option string :=
  let pids := map fork (seq 0 (Z.to_nat count)) in
  (pids,
   if write_ok
   then Some (String.append (join_lines (map show_pid pids))
                            (String newline EmptyString))
   else pid_file).

(** [worker stop]: the pids it signals, in order, and the PID file
    afterwards. *)
Definition worker_stop (pid_file : option string) : list string * option string :=
  match pid_file with
  | None => ([], None)
  | Some content => (filter nonempty (split_lines (trim content)), None)
  end.

(** [status]: the summary, and the pids read from the PID file when
    there is one. *)
Definition status (db : DB) (pid_file : option string)
  : list (string * Z) * option (list string) :=
  (summary db,
   option_map (fun content => filter nonempty (split_newline (trim content)))
              pid_file).

(** A text with no white space in it. *)
Fixpoint plain (s : string) : bool :=
  match s with
  | EmptyString => true
  | String c r => negb (JS.isWhite c) && plain r
  end.

(** ** enqueue_jobs.js *)

(** The [forEach] of the script: one [enqueue] for each job, the
    [k]-th with its own uuid and clock reading [env k]; a job that is
    refused does not stop the others. *)
Fixpoint enqueue_each (env : nat -> string * Z) (k : nat) (js : list Payload)
    (db : DB) : list EnqueueOutcome * DB :=
  match js with
  | [] => ([], db)
  | job :: rest =>
      let '(o, db1) := enqueue (fst (env k)) (snd (env k)) job db in
      let '(os, db2) := enqueue_each env (S k) rest db1 in
      (o :: os, db2)
  end.

Definition double_quote : string := String (ascii_of_nat 34) EmptyString.

(** The [jobs] of the script. *)
Definition script_jobs : list Payload :=
  [mkPayload (Some "job1") (Some "echo Hello from job1") (Some 3);
   mkPayload (Some "job2")
     (Some (String.append "bash -c "
              (String.append double_quote (String.append "exit 1" double_quote))))
     (Some 2);
   mkPayload (Some "job3") (Some "sleep 2 && echo done") (Some 2);
   mkPayload (Some "job4") (Some "echo Hello from Windows") (Some 2);
   mkPayload (Some "job5") (Some "timeout /t 2 && echo Done") (Some 2)].

(** ** Measures and shapes the statements use *)

Definition executed (i : string) (o : Outcome) : bool :=
  match o with
  | Executed x _ => String.eqb x i
  | _ => false
  end.

(** How many turns ran the command of job [i]. *)
Definition executions (i : string) (os : list Outcome) : nat :=
  List.length (filter (executed i) os).



(** The runs a row still has before it is [completed] or [dead]. *)
Definition budget (j : Job) : Z :=
  if claimable j then Z.max 1 (max_retries j - attempts j) else 0.

(** What the operations keep true of every row. *)
Definition shaped (j : Job) : Prop :=
  0 <= attempts j /\
  available_at j <> None /\
  (state j = pending -> attempts j = 0) /\
  (state j = failed -> 1 <= attempts j < max_retries j) /\
  (state j = dead -> 1 <= attempts j /\ max_retries j <= attempts j /\
                     last_error j <> None).

(** What one operation does to the row [j] of a store: nothing, or one
    of the UPDATEs of the program. *)
Inductive RowStep (op : Op) (db : DB) (j : Job) : Job -> Prop :=
| step_same : RowStep op db j j
| step_reset now :
    op = DlqRetry (id j) now -> RowStep op db j (reset now j)
| step_claim now :
    claimable j = true ->
    (op = Claim now \/ exists exec now_done, op = Work exec now now_done) ->
    RowStep op db j (set_processing now j)
| step_settle exec now_claim now_done result :
    op = Work exec now_claim now_done ->
    claimable j = true ->
    fst (workerTurn exec now_claim now_done db) = Executed (id j) result ->
    RowStep op db j
      (settle now_done (mkDB (snd (claimTx now_claim (jobs db))) (config db))
              (set_processing now_claim j) result (set_processing now_claim j))
| step_recover staleSeconds now :
    op = Recover staleSeconds now ->
    stale (now - staleSeconds * 1000) j = true ->
    RowStep op db j (recovered db now j j).

(** The columns no UPDATE of the program writes. *)
Definition same_job (j j' : Job) : Prop :=
  id j' = id j /\ command j' = command j /\
  max_retries j' = max_retries j /\ created_at j' = created_at j.

(** ** Fixtures *)

(** A command line that fails when it is [exit 1]. *)
Definition fixture_shell : Shell :=
  fun cmd =>
    if String.eqb cmd "exit 1"
    then (Some (mkExecError (Some (CodeNum 1)) "Command failed: exit 1"), "")
    else (None, "").

Definition fixture_store : DB :=
  let db0 := initDb emptyDb in
  let db1 := run (Enqueue "u-1" 10
                    (mkPayload (Some "job1") (Some "echo Hello from job1") (Some 3)))
                 db0 in
  run (Enqueue "u-2" 20 (mkPayload (Some "job2") (Some "exit 1") (Some 2))) db1.

(** * Properties *)

(** ** Facts about the SQL statements *)

Lemma has_id_true i j : has_id i j = true <-> id j = i.
Proof. unfold has_id. apply String.eqb_eq. Qed.

Lemma has_id_false i j : has_id i j = false <-> id j <> i.
Proof. unfold has_id. apply String.eqb_neq. Qed.

Lemma has_id_self j : has_id (id j) j = true.
Proof. apply has_id_true. reflexivity. Qed.

Section UpdateWhere.

Variable p : Job -> bool.
Variable f : Job -> Job.
Hypothesis f_id : forall j, id (f j) = id j.

Lemma update_where_ids t : ids (update_where p f t) = ids t.
Proof.
  unfold ids, update_where. rewrite map_map. apply map_ext.
  intro j. destruct (p j); auto.
Qed.

Lemma update_where_pk t : pk t -> pk (update_where p f t).
Proof. unfold pk. now rewrite update_where_ids. Qed.

Lemma select_update_where i t :
  select_by_id i (update_where p f t) =
  option_map (fun j => if p j then f j else j) (select_by_id i t).
Proof.
  unfold select_by_id, update_where.
  induction t as [|j t IH]; simpl; [reflexivity|].
  assert (E : has_id i (if p j then f j else j) = has_id i j).
  { unfold has_id. destruct (p j); [rewrite f_id|]; reflexivity. }
  rewrite E. destruct (has_id i j); [reflexivity | exact IH].
Qed.

End UpdateWhere.

Lemma select_by_id_In i t j : select_by_id i t = Some j -> In j t /\ id j = i.
Proof.
  unfold select_by_id. intro H. apply find_some in H.
  destruct H as [H1 H2]. split; [assumption | now apply has_id_true].
Qed.

Lemma select_by_id_None i t : select_by_id i t = None -> ~ In i (ids t).
Proof.
  unfold select_by_id, ids. intros H Hin. apply in_map_iff in Hin.
  destruct Hin as [j [E Hj]].
  pose proof (find_none _ _ H j Hj) as F.
  apply has_id_false in F. contradiction.
Qed.

(** Under the primary key, the row of an id is the row the lookup
    returns. *)
Lemma pk_select t j : pk t -> In j t -> select_by_id (id j) t = Some j.
Proof.
  unfold pk, ids, select_by_id.
  induction t as [|k t IH]; simpl; intros Hnd Hin; [contradiction|].
  inversion Hnd as [|? ? Hk Hnd']; subst.
  destruct Hin as [->|Hin].
  - now rewrite has_id_self.
  - destruct (has_id (id j) k) eqn:E.
    + apply has_id_true in E. exfalso. apply Hk. rewrite E.
      now apply in_map.
    + now apply IH.
Qed.

Lemma existsb_has_id i t : existsb (has_id i) t = false -> ~ In i (ids t).
Proof.
  unfold ids. intros H Hin. apply in_map_iff in Hin.
  destruct Hin as [j [E Hj]].
  assert (X : existsb (has_id i) t = true).
  { apply existsb_exists. exists j. split; [assumption | now apply has_id_true]. }
  congruence.
Qed.

(** ** Submission *)

(** C8. A payload without a [command] field is rejected: the
    submission ends with the "must include command" error and exit
    status 1, and the store is what it was: no row is created. *)
Theorem enqueue_missing_command (uuid : string) (now : Z) (job : Payload) (db : DB) :
  job_command job = None ->
  enqueue uuid now job db = (MissingCommand, db).
Proof.
  intro H. unfold enqueue. rewrite H. reflexivity.
Qed.

Lemma enqueue_missing_command_witness :
  enqueue "u-1" 1000 (mkPayload (Some "job6") None (Some 3))
          (initDb emptyDb)
  = (MissingCommand, initDb emptyDb).
Proof.
  apply (enqueue_missing_command "u-1" 1000
           (mkPayload (Some "job6") None (Some 3)) (initDb emptyDb)).
  reflexivity.
Defined.

Lemma enqueue_inv uuid now job db i db' :
  enqueue uuid now job db = (Enqueued i, db') ->
  exists cmd m,
    truthy_text (job_command job) = Some cmd /\
    resolve_max_retries job db = Some m /\
    ~ In i (ids (jobs db)) /\
    i = match truthy_text (job_id job) with Some x => x | None => uuid end /\
    db' = mkDB (jobs db ++ [mkJob i cmd pending 0 m now now (Some now) None])
               (config db).
Proof.
  unfold enqueue.
  destruct (truthy_text (job_command job)) as [cmd|]; [|discriminate].
  destruct (resolve_max_retries job db) as [m|]; [|discriminate].
  destruct (existsb _ (jobs db)) eqn:Ex; [discriminate|].
  intro H. inversion H; subst. exists cmd, m.
  repeat split; auto. now apply existsb_has_id.
Qed.

(** [initDb] seeds the two defaults and overwrites nothing. *)
Lemma select_value_app key c c' :
  select_value key (c ++ c') =
  match select_value key c with
  | Some v => Some v
  | None => select_value key c'
  end.
Proof.
  induction c as [|[k v] c IH]; simpl; [reflexivity|].
  destruct (String.eqb k key); [reflexivity | exact IH].
Qed.

Lemma insert_or_ignore_select key value c key' :
  select_value key' (insert_or_ignore key value c) =
  match select_value key' c with
  | Some v => Some v
  | None => if String.eqb key key' then Some value else None
  end.
Proof.
  unfold insert_or_ignore.
  destruct (select_value key c) as [v|] eqn:S.
  - destruct (select_value key' c) as [v'|] eqn:S'; [reflexivity|].
    destruct (String.eqb key key') eqn:E; [|reflexivity].
    apply String.eqb_eq in E. congruence.
  - rewrite select_value_app. simpl.
    destruct (select_value key' c); reflexivity.
Qed.

Lemma initDb_getConfig db key fallback :
  getConfig (initDb db) key fallback =
  match select_value key (config db) with
  | Some v => v
  | None =>
      if String.eqb "backoff-base" key then "2"
      else if String.eqb "max-retries" key then "3"
      else fallback
  end.
Proof.
  unfold getConfig, initDb. cbn [config].
  rewrite !insert_or_ignore_select.
  destruct (select_value key (config db)); [reflexivity|].
  destruct (String.eqb "backoff-base" key); [reflexivity|].
  destruct (String.eqb "max-retries" key); reflexivity.
Qed.

(** A store initialised before any [config set] reads
    [max-retries] as 3 and [backoff-base] as 2. *)
Lemma initDb_defaults db :
  config db = [] ->
  JS.parseInt (getConfig (initDb db) "max-retries" "3") = Some 3 /\
  backoffBase (initDb db) = 2%Q.
Proof.
  intro H. unfold backoffBase. rewrite !initDb_getConfig, H. split; reflexivity.
Qed.





(** ** The claim transaction *)

Lemma eligible_spec now j : eligible now j = true <-> Eligible now j.
Proof.
  unfold eligible, Eligible, datetime. split.
  - destruct (state j); try discriminate; [now left|].
    destruct (available_at j) as [a|]; [|discriminate].
    intro H. right. split; [reflexivity|]. exists a. split; [reflexivity|].
    now apply Z.leb_le.
  - intros [H|[H [a [Ha Hle]]]]; rewrite H; [reflexivity|].
    rewrite Ha. now apply Z.leb_le.
Qed.

Lemma eligible_claimable now j : eligible now j = true -> claimable j = true.
Proof. unfold eligible, claimable. destruct (state j); auto. Qed.

Lemma oldest_None t : oldest t = None -> t = [].
Proof.
  destruct t as [|j r]; [reflexivity|]. simpl.
  destruct (oldest r) as [k|]; [|discriminate].
  destruct (created_at k <? created_at j); discriminate.
Qed.

Lemma oldest_Some t j :
  oldest t = Some j ->
  In j t /\ forall k, In k t -> created_at j <= created_at k.
Proof.
  revert j. induction t as [|x r IH]; simpl; intros j H; [discriminate|].
  destruct (oldest r) as [k|] eqn:E.
  - destruct (IH k eq_refl) as [Hin Hmin].
    destruct (created_at k <? created_at x) eqn:L; inversion H; subst.
    + apply Z.ltb_lt in L. split; [now right|].
      intros y [<-|Hy]; [lia | now apply Hmin].
    + apply Z.ltb_ge in L. split; [now left|].
      intros y [<-|Hy]; [lia|]. specialize (Hmin y Hy). lia.
  - inversion H; subst. apply oldest_None in E. subst r.
    split; [now left|]. intros y [<-|[]]. lia.
Qed.

Lemma pk_unique t a b : pk t -> In a t -> In b t -> id a = id b -> a = b.
Proof.
  intros Hpk Ha Hb E.
  pose proof (pk_select t a Hpk Ha) as Sa.
  pose proof (pk_select t b Hpk Hb) as Sb.
  rewrite E in Sa. congruence.
Qed.

(** Under the primary key a guard that pins the id matches one row. *)
Lemma pk_filter_one (p : Job -> bool) t c :
  pk t -> In c t -> p c = true ->
  (forall j, p j = true -> id j = id c) ->
  filter p t = [c].
Proof.
  intros Hpk Hc Hpc Hp.
  assert (G : forall j, In j t -> p j = true -> j = c).
  { intros j Hj Hpj. apply (pk_unique t); auto. }
  clear Hp. unfold pk, ids in Hpk.
  induction t as [|x r IH]; simpl in *; [contradiction|].
  inversion Hpk as [|? ? Hx Hr]; subst.
  destruct Hc as [->|Hc].
  - rewrite Hpc. f_equal.
    assert (N : forall j, In j r -> p j = false).
    { intros j Hj. destruct (p j) eqn:E; [|reflexivity].
      exfalso. apply Hx. rewrite <- (G j (or_intror Hj) E). now apply in_map. }
    clear -N. induction r as [|y r IH]; simpl; [reflexivity|].
    rewrite (N y (or_introl eq_refl)). apply IH. intros j Hj. apply N. now right.
  - destruct (p x) eqn:E.
    + exfalso. apply Hx. rewrite (G x (or_introl eq_refl) E). now apply in_map.
    + apply IH; auto.
Qed.

Lemma claim_guard_id i j : claim_guard i j = true -> id j = i.
Proof.
  unfold claim_guard. intro H. apply andb_true_iff in H.
  now apply has_id_true.
Qed.

(** What [claimTx] does, by cases on the candidate query. *)
Lemma claimTx_cases now t :
  (oldest (filter (eligible now) t) = None /\ claimTx now t = (None, t)) \/
  (exists c,
     oldest (filter (eligible now) t) = Some c /\
     snd (claimTx now t) = update_where (claim_guard (id c)) (set_processing now) t /\
     (fst (claimTx now t) = Some (id c) /\ changes (claim_guard (id c)) t = 1 \/
      fst (claimTx now t) = None /\ changes (claim_guard (id c)) t <> 1)).
Proof.
  unfold claimTx. destruct (oldest (filter (eligible now) t)) as [c|].
  - right. exists c. split; [reflexivity|].
    destruct (changes (claim_guard (id c)) t =? 1) eqn:E; simpl.
    + split; [reflexivity|]. left. split; [reflexivity | now apply Z.eqb_eq].
    + split; [reflexivity|]. right. split; [reflexivity | now apply Z.eqb_neq].
  - left. split; reflexivity.
Qed.

Lemma claimTx_ids now t : ids (snd (claimTx now t)) = ids t.
Proof.
  destruct (claimTx_cases now t) as [[_ E]|[c [_ [E _]]]]; rewrite E.
  - reflexivity.
  - apply update_where_ids. intro j. reflexivity.
Qed.

(** Under the primary key the conditional UPDATE changes exactly the
    candidate. *)
Lemma claimTx_pk now t c :
  pk t -> oldest (filter (eligible now) t) = Some c ->
  In c t /\ eligible now c = true /\
  (forall k, In k t -> eligible now k = true -> created_at c <= created_at k) /\
  changes (claim_guard (id c)) t = 1 /\
  claimTx now t =
    (Some (id c), update_where (claim_guard (id c)) (set_processing now) t).
Proof.
  intros Hpk Ho. pose proof (oldest_Some _ _ Ho) as [Hin Hmin].
  apply filter_In in Hin. destruct Hin as [Hin Hel].
  assert (Hch : changes (claim_guard (id c)) t = 1).
  { unfold changes. rewrite (pk_filter_one _ t c); auto.
    - unfold claim_guard. rewrite has_id_self.
      now rewrite (eligible_claimable now c Hel).
    - intros j Hj. now apply claim_guard_id. }
  repeat split; auto.
  - intros k Hk Hek. apply Hmin. apply filter_In. auto.
  - unfold claimTx. rewrite Ho, Hch. reflexivity.
Qed.

(** The row of [i] after a claim of [i]; the other rows stay. *)
Lemma claim_update_select now t c i :
  pk t -> In c t -> claimable c = true ->
  select_by_id i (update_where (claim_guard (id c)) (set_processing now) t) =
  if String.eqb i (id c) then Some (set_processing now c) else select_by_id i t.
Proof.
  intros Hpk Hc Hcl.
  rewrite select_update_where by (intro; reflexivity).
  destruct (String.eqb i (id c)) eqn:E.
  - apply String.eqb_eq in E. subst i. rewrite (pk_select t c Hpk Hc). simpl.
    unfold claim_guard. now rewrite has_id_self, Hcl.
  - apply String.eqb_neq in E.
    destruct (select_by_id i t) as [j|] eqn:S; [|reflexivity]. simpl.
    apply select_by_id_In in S. destruct S as [_ S].
    unfold claim_guard.
    assert (F : has_id (id c) j = false) by (apply has_id_false; congruence).
    now rewrite F.
Qed.

(** C3, the claim as it stands fails.  Under the initial
    configuration a job that fails at instant 1900 is due at 3900; a claim
    at 3000, before it is due, takes it: [datetime] puts both instants in
    second 3. *)
Lemma claim_before_due :
  let db1 := snd (enqueue "u-1" 0
                    (mkPayload (Some "job2") (Some "exit 1") (Some 3))
                    (initDb emptyDb)) in
  let sh : Shell :=
    fun _ => (Some (mkExecError (Some (CodeNum 1)) "Command failed: exit 1"), "") in
  let db2 := snd (workerTurn sh 100 1900 db1) in
  exists j,
    jobs db2 = [j] /\ state j = failed /\ available_at j = Some 3900 /\
    3000 < 3900 /\
    fst (claimTx 3000 (jobs db2)) = Some "job2".
Proof.
  vm_compute. eexists. repeat split; reflexivity.
Qed.

(** The row a claim takes, under the primary key. *)
Lemma claimTx_taken now t i :
  pk t -> fst (claimTx now t) = Some i ->
  exists j,
    select_by_id i t = Some j /\ Eligible now j /\
    (forall k, In k t -> Eligible now k -> created_at j <= created_at k) /\
    changes (claim_guard i) t = 1 /\
    select_by_id i (snd (claimTx now t)) = Some (set_processing now j) /\
    (forall i', i' <> i ->
       select_by_id i' (snd (claimTx now t)) = select_by_id i' t).
Proof.
  intros Hpk Hi.
  destruct (oldest (filter (eligible now) t)) as [c|] eqn:Ho.
  - destruct (claimTx_pk now t c Hpk Ho) as [Hin [Hel [Hmin [Hch E]]]].
    rewrite E in Hi |- *. simpl in Hi |- *. inversion Hi; subst i.
    exists c. split; [now apply pk_select|].
    split; [now apply eligible_spec|].
    split; [intros k Hk Hek; apply Hmin; auto; now apply eligible_spec|].
    split; [exact Hch|].
    pose proof (eligible_claimable now c Hel) as Hcl.
    split.
    + rewrite (claim_update_select now t c (id c) Hpk Hin Hcl).
      now rewrite String.eqb_refl.
    + intros i' Hne. rewrite (claim_update_select now t c i' Hpk Hin Hcl).
      apply String.eqb_neq in Hne. now rewrite Hne.
  - unfold claimTx in Hi. rewrite Ho in Hi. discriminate.
Qed.

(** When a claim takes nothing, no row was eligible. *)
Lemma claimTx_nothing now t :
  pk t -> fst (claimTx now t) = None ->
  (forall k, In k t -> ~ Eligible now k) /\ snd (claimTx now t) = t.
Proof.
  intros Hpk Hn.
  destruct (oldest (filter (eligible now) t)) as [c|] eqn:Ho.
  - destruct (claimTx_pk now t c Hpk Ho) as [_ [_ [_ [_ E]]]].
    rewrite E in Hn. discriminate.
  - pose proof (oldest_None _ Ho) as Hnil. split.
    + intros k Hk Hek. apply eligible_spec in Hek.
      assert (X : In k (filter (eligible now) t)) by (apply filter_In; auto).
      rewrite Hnil in X. contradiction.
    + unfold claimTx. now rewrite Ho.
Qed.

(** C3, amended. A claim takes a row that is [pending], or [failed] with
    [available_at] no later than now when both are cut to the whole
    second; among those rows it takes one of the least [created_at].  The
    guarded UPDATE then changes one row, that row becomes [processing] and
    its id is returned, and every other row is left as it was.  When no row
    qualifies nothing is claimed and the table is unchanged.  A [failed]
    row whose [available_at] falls in a later second than now, or is
    unset, is not claimed. *)
Theorem claimTx_spec (now : Z) (t : list Job) :
  pk t ->
  (forall i, fst (claimTx now t) = Some i ->
     exists j,
       select_by_id i t = Some j /\ Eligible now j /\
       (forall k, In k t -> Eligible now k -> created_at j <= created_at k) /\
       changes (claim_guard i) t = 1 /\
       select_by_id i (snd (claimTx now t)) = Some (set_processing now j) /\
       (forall i', i' <> i ->
          select_by_id i' (snd (claimTx now t)) = select_by_id i' t)) /\
  (fst (claimTx now t) = None ->
     (forall k, In k t -> ~ Eligible now k) /\ snd (claimTx now t) = t) /\
  (forall j, In j t -> state j = failed ->
     (forall a, available_at j = Some a -> now / 1000 < a / 1000) ->
     fst (claimTx now t) <> Some (id j)).
Proof.
  intro Hpk.
  split; [intros i Hi; now apply claimTx_taken|].
  split; [now apply claimTx_nothing|].
  intros j Hj Hst Hav Hc.
  destruct (claimTx_taken now t (id j) Hpk Hc) as [j' [Hs [Hel _]]].
  rewrite (pk_select t j Hpk Hj) in Hs. inversion Hs; subst j'.
  destruct Hel as [Hp|[_ [a [Ha Hle]]]]; [congruence|].
  specialize (Hav a Ha). lia.
Qed.

Lemma claimTx_spec_witness :
  let j1 := mkJob "job1" "echo a" failed 1 3 10 20 (Some 5000) (Some "error") in
  let j2 := mkJob "job2" "echo b" pending 0 3 30 30 (Some 30) None in
  fst (claimTx 1000 [j1; j2]) <> Some "job1" /\
  select_by_id "job2" (snd (claimTx 1000 [j1; j2])) = Some (set_processing 1000 j2).
Proof.
  intros j1 j2.
  assert (Hpk : pk [j1; j2]).
  { repeat constructor; simpl; intuition discriminate. }
  destruct (claimTx_spec 1000 [j1; j2] Hpk) as [A [_ C]].
  split.
  - apply (C j1); [now left | reflexivity|].
    intros a Ha. inversion Ha; subst a. reflexivity.
  - destruct (A "job2" eq_refl) as [j [Hs [_ [_ [_ [H _]]]]]].
    inversion Hs; subst j. exact H.
Defined.

(** ** The retry instant *)




(** ** The worker's turn *)

Lemma settle_id now db job result j : id (settle now db job result j) = id j.
Proof.
  unfold settle. destruct (succeeded result); [reflexivity|].
  destruct (attempts job + 1 >=? max_retries job); reflexivity.
Qed.

Lemma record_result_eq now db job result :
  record_result now db job result =
  update_where (has_id (id job)) (settle now db job result) (jobs db).
Proof.
  unfold record_result, settle. destruct (succeeded result); [reflexivity|].
  destruct (attempts job + 1 >=? max_retries job); reflexivity.
Qed.

Lemma record_result_select now db job result i :
  select_by_id i (record_result now db job result) =
  if String.eqb i (id job)
  then option_map (settle now db job result) (select_by_id i (jobs db))
  else select_by_id i (jobs db).
Proof.
  rewrite record_result_eq.
  rewrite select_update_where by apply settle_id.
  destruct (select_by_id i (jobs db)) as [j|] eqn:S;
    [|now destruct (String.eqb i (id job))].
  apply select_by_id_In in S. destruct S as [_ S]. simpl.
  unfold has_id. rewrite S.
  now destruct (String.eqb i (id job)).
Qed.

Lemma workerTurn_executed exec nc nd db i result db' :
  workerTurn exec nc nd db = (Executed i result, db') ->
  exists t1 job,
    claimTx nc (jobs db) = (Some i, t1) /\
    select_by_id i t1 = Some job /\ id job = i /\
    result = runCommand exec (command job) /\
    db' = mkDB (record_result nd (mkDB t1 (config db)) job result) (config db).
Proof.
  unfold workerTurn.
  destruct (claimTx nc (jobs db)) as [jobId t1].
  destruct jobId as [i0|]; simpl; [|discriminate].
  destruct (String.eqb i0 "") eqn:E0; [discriminate|].
  destruct (select_by_id i0 t1) as [job|] eqn:S; [|discriminate].
  intro H. inversion H; subst.
  pose proof (select_by_id_In _ _ _ S) as [_ Hid].
  exists t1, job. rewrite Hid. repeat split; auto.
Qed.

(** The row the worker reads after its claim is the row of that id
    before the claim, up to the claim's own UPDATE. *)
Lemma claimed_row now t i t1 job :
  claimTx now t = (Some i, t1) -> select_by_id i t1 = Some job ->
  exists j,
    select_by_id i t = Some j /\
    (job = j \/ job = set_processing now j).
Proof.
  intros Hc Hs.
  destruct (claimTx_cases now t) as [[_ E]|[c [_ [E _]]]].
  - rewrite E in Hc. discriminate.
  - rewrite Hc in E. simpl in E. subst t1.
    rewrite select_update_where in Hs by (intro; reflexivity).
    destruct (select_by_id i t) as [j|]; [|discriminate].
    exists j. split; [reflexivity|]. simpl in Hs. inversion Hs.
    destruct (claim_guard (id c) j); auto.
Qed.

(** The row of the executed job before and after the turn. *)
Lemma workerTurn_row exec nc nd db i result db' :
  workerTurn exec nc nd db = (Executed i result, db') ->
  exists j job,
    select_by_id i (jobs db) = Some j /\
    attempts job = attempts j /\ max_retries job = max_retries j /\
    select_by_id i (jobs db') =
      Some (settle nd (mkDB (snd (claimTx nc (jobs db))) (config db)) job result job) /\
    (forall i', i' <> i ->
       select_by_id i' (jobs db') = select_by_id i' (snd (claimTx nc (jobs db)))).
Proof.
  intro H. apply workerTurn_executed in H.
  destruct H as [t1 [job [Hc [Hs [Hid [_ ->]]]]]].
  destruct (claimed_row _ _ _ _ _ Hc Hs) as [j [Hj Hjob]].
  exists j, job. rewrite Hc. simpl.
  split; [exact Hj|].
  split; [destruct Hjob as [->| ->]; reflexivity|].
  split; [destruct Hjob as [->| ->]; reflexivity|].
  split.
  - rewrite record_result_select. simpl.
    rewrite Hid, String.eqb_refl, Hs. reflexivity.
  - intros i' Hne. rewrite record_result_select. simpl.
    rewrite Hid. apply String.eqb_neq in Hne. now rewrite Hne.
Qed.

(** ** The recovery scan *)

Lemma recovered_id db now r j : id (recovered db now r j) = id j.
Proof.
  unfold recovered. destruct (attempts r + 1 >=? max_retries r); reflexivity.
Qed.

Lemma recovered_state db now r j :
  state (recovered db now r j) =
  if attempts r + 1 >=? max_retries r then dead else failed.
Proof.
  unfold recovered. destruct (attempts r + 1 >=? max_retries r); reflexivity.
Qed.

Lemma recover_row_eq db now t r :
  recover_row db now t r = map (fun j => recover_step db now j r) t.
Proof.
  unfold recover_row, recover_step, recovered, update_where.
  destruct (attempts r + 1 >=? max_retries r); reflexivity.
Qed.

(** The loop over the selected rows, seen from one row of the table. *)
Lemma recover_fold db now rows t :
  fold_left (recover_row db now) rows t =
  map (fun j => fold_left (recover_step db now) rows j) t.
Proof.
  revert t. induction rows as [|r rows IH]; intro t; simpl.
  - now rewrite map_id.
  - rewrite IH, recover_row_eq, map_map. reflexivity.
Qed.

Lemma recover_step_id db now j r : id (recover_step db now j r) = id j.
Proof.
  unfold recover_step. destruct (has_id (id r) j); [apply recovered_id | reflexivity].
Qed.

Lemma fold_step_id db now rows x :
  id (fold_left (recover_step db now) rows x) = id x.
Proof.
  revert x. induction rows as [|r rows IH]; intro x; simpl; [reflexivity|].
  now rewrite IH, recover_step_id.
Qed.

Lemma fold_step_miss db now rows x :
  (forall r, In r rows -> id r <> id x) ->
  fold_left (recover_step db now) rows x = x.
Proof.
  revert x. induction rows as [|r rows IH]; intros x H; simpl; [reflexivity|].
  assert (E : recover_step db now x r = x).
  { unfold recover_step.
    assert (F : has_id (id r) x = false).
    { apply has_id_false. intro E. apply (H r (or_introl eq_refl)). auto. }
    now rewrite F. }
  rewrite E. apply IH. intros r' Hr'. apply H. now right.
Qed.

Lemma fold_step_hit db now rows j :
  NoDup (ids rows) -> In j rows ->
  fold_left (recover_step db now) rows j = recovered db now j j.
Proof.
  unfold ids. induction rows as [|r rows IH]; simpl; intros Hnd Hin; [contradiction|].
  inversion Hnd as [|? ? Hr Hnd']; subst.
  destruct Hin as [->|Hin].
  - unfold recover_step at 2. rewrite has_id_self.
    apply fold_step_miss. intros r Hr' E. apply Hr.
    rewrite recovered_id in E. rewrite <- E. now apply in_map.
  - assert (E : recover_step db now j r = j).
    { unfold recover_step.
      assert (F : has_id (id r) j = false).
      { apply has_id_false. intro E. apply Hr. rewrite <- E. now apply in_map. }
      now rewrite F. }
    rewrite E. now apply IH.
Qed.

Lemma pk_filter (p : Job -> bool) t : pk t -> pk (filter p t).
Proof.
  unfold pk, ids. induction t as [|j t IH]; simpl; intro H; [constructor|].
  inversion H as [|? ? Hj Ht]; subst.
  destruct (p j); simpl; [|now apply IH].
  constructor; [|now apply IH].
  intro Hin. apply Hj. apply in_map_iff in Hin.
  destruct Hin as [k [E Hk]]. apply filter_In in Hk.
  rewrite <- E. apply in_map. tauto.
Qed.

(** Under the primary key the scan rewrites exactly the stale
    [processing] rows, each from its own snapshot. *)
Lemma recover_jobs staleSeconds now db :
  pk (jobs db) ->
  jobs (snd (recover staleSeconds now db)) =
  update_where (stale (now - staleSeconds * 1000))
               (fun j => recovered db now j j) (jobs db).
Proof.
  intro Hpk. unfold recover. simpl. rewrite recover_fold.
  unfold update_where. apply map_ext_in. intros j Hj.
  set (th := now - staleSeconds * 1000).
  destruct (stale th j) eqn:St.
  - apply fold_step_hit.
    + now apply pk_filter.
    + apply filter_In. auto.
  - apply fold_step_miss. intros r Hr E.
    apply filter_In in Hr. destruct Hr as [Hr Sr].
    rewrite (pk_unique (jobs db) r j Hpk Hr Hj E) in Sr. congruence.
Qed.

Lemma recover_select staleSeconds now db i :
  pk (jobs db) ->
  select_by_id i (jobs (snd (recover staleSeconds now db))) =
  option_map (fun j => if stale (now - staleSeconds * 1000) j
                       then recovered db now j j else j)
             (select_by_id i (jobs db)).
Proof.
  intro Hpk. rewrite recover_jobs by assumption.
  apply select_update_where. intro j. apply recovered_id.
Qed.

Lemma stale_spec th j :
  stale th j = true <-> state j = processing /\ updated_at j <= th.
Proof.
  unfold stale. rewrite andb_true_iff, Z.leb_le.
  destruct (state j); simpl; intuition discriminate.
Qed.

Lemma recover_step_fresh db now th x r :
  stale th x = false -> stale th (recover_step db now x r) = false.
Proof.
  unfold recover_step. destruct (has_id (id r) x); [|auto].
  intros _. unfold stale. rewrite recovered_state.
  destruct (attempts r + 1 >=? max_retries r); reflexivity.
Qed.

(** A row that is not stale, or that is among the selected rows, is
    not stale once the loop has run. *)
Lemma fold_step_fresh db now th rows x :
  stale th x = false \/ (exists r, In r rows /\ id r = id x) ->
  stale th (fold_left (recover_step db now) rows x) = false.
Proof.
  revert x. induction rows as [|r rows IH]; intros x H; simpl.
  - destruct H as [H|[r [[] _]]]. exact H.
  - apply IH.
    destruct (has_id (id r) x) eqn:E.
    + left. unfold recover_step. rewrite E. unfold stale.
      rewrite recovered_state.
      destruct (attempts r + 1 >=? max_retries r); reflexivity.
    + destruct H as [H|[r' [[<-|Hr'] Hid]]].
      * left. now apply recover_step_fresh.
      * apply has_id_false in E. congruence.
      * right. exists r'. split; [assumption|].
        now rewrite recover_step_id.
Qed.

(** C6. A second scan with the same threshold at the same instant
    selects no row and leaves the store as the first scan left it: every
    row the first scan selected is [failed] or [dead] by then, and the rows
    it did not select were not stale [processing] rows. *)
Theorem recover_twice (staleSeconds now : Z) (db : DB) :
  recover staleSeconds now (snd (recover staleSeconds now db)) =
  ([], snd (recover staleSeconds now db)).
Proof.
  set (th := now - staleSeconds * 1000).
  assert (E : filter (stale th) (jobs (snd (recover staleSeconds now db))) = []).
  { unfold recover. simpl. fold th. rewrite recover_fold.
    set (rows := filter (stale th) (jobs db)).
    assert (G : forall j, In j (jobs db) ->
                stale th (fold_left (recover_step db now) rows j) = false).
    { intros j Hj. apply fold_step_fresh.
      destruct (stale th j) eqn:S; [right | now left].
      exists j. split; [|reflexivity]. apply filter_In. auto. }
    clearbody rows. induction (jobs db) as [|j t IH]; simpl; [reflexivity|].
    rewrite (G j (or_introl eq_refl)). apply IH.
    intros k Hk. apply G. now right. }
  unfold recover at 1. fold th. rewrite E. reflexivity.
Qed.

(** ** The failure transition *)

Lemma recover_stale_row staleSeconds now db r :
  pk (jobs db) -> In r (jobs db) ->
  state r = processing -> updated_at r <= now - staleSeconds * 1000 ->
  select_by_id (id r) (jobs (snd (recover staleSeconds now db))) =
  Some (recovered db now r r).
Proof.
  intros Hpk Hin Hst Hup.
  rewrite recover_select by assumption.
  rewrite (pk_select _ _ Hpk Hin). simpl.
  assert (S : stale (now - staleSeconds * 1000) r = true)
    by (apply stale_spec; auto).
  now rewrite S.
Qed.




(** ** The count of attempts *)

Lemma select_by_id_app i t l j :
  select_by_id i t = Some j -> select_by_id i (t ++ l) = Some j.
Proof.
  unfold select_by_id. induction t as [|x t IH]; simpl; [discriminate|].
  destruct (has_id i x); auto.
Qed.

Lemma enqueue_select uuid now job db i j :
  select_by_id i (jobs db) = Some j ->
  select_by_id i (jobs (snd (enqueue uuid now job db))) = Some j.
Proof.
  intro H. unfold enqueue.
  destruct (truthy_text (job_command job)); [|exact H].
  destruct (resolve_max_retries job db); [|exact H].
  destruct (existsb _ (jobs db)); [exact H|].
  simpl. now apply select_by_id_app.
Qed.

Lemma dlq_retry_select i0 now db i j :
  select_by_id i (jobs db) = Some j ->
  select_by_id i (jobs (snd (dlq_retry i0 now db))) =
  Some (if String.eqb i i0 then reset now j else j).
Proof.
  intro H. unfold dlq_retry.
  destruct (select_by_id i0 (jobs db)) as [j0|] eqn:S0; simpl.
  - rewrite select_update_where by (intro; reflexivity).
    rewrite H. simpl. apply select_by_id_In in H. destruct H as [_ H].
    assert (B : has_id i0 j = String.eqb i i0) by (unfold has_id; now rewrite H).
    now rewrite B.
  - destruct (String.eqb i i0) eqn:E; [|exact H].
    apply String.eqb_eq in E. congruence.
Qed.

Lemma claim_select now t i j :
  select_by_id i t = Some j ->
  exists j',
    select_by_id i (snd (claimTx now t)) = Some j' /\
    (j' = j \/ (claimable j = true /\ j' = set_processing now j)).
Proof.
  intro H.
  destruct (claimTx_cases now t) as [[_ E]|[c [_ [E _]]]]; rewrite E; simpl.
  - exists j. auto.
  - rewrite select_update_where by (intro; reflexivity). rewrite H. simpl.
    eexists. split; [reflexivity|].
    unfold claim_guard. destruct (has_id (id c) j); simpl; auto.
    destruct (claimable j); auto.
Qed.

(** The store a worker's turn leaves: the claim's, and the UPDATE of
    the result when a command ran. *)
Lemma workerTurn_cases exec nc nd db :
  (forall i result, fst (workerTurn exec nc nd db) <> Executed i result) /\
  jobs (snd (workerTurn exec nc nd db)) = snd (claimTx nc (jobs db))
  \/
  exists i result db',
    workerTurn exec nc nd db = (Executed i result, db').
Proof.
  unfold workerTurn.
  destruct (claimTx nc (jobs db)) as [jobId t1]. simpl.
  destruct (truthy_text jobId) as [i|].
  - destruct (select_by_id i t1) as [job|].
    + right. eexists _, _, _. reflexivity.
    + left. split; [intros; discriminate | reflexivity].
  - left. split; [intros; discriminate | reflexivity].
Qed.

(** Each operation leaves every row in the table, and does one of
    three things to its count of attempts. *)
Lemma run_attempts op db i j :
  pk (jobs db) -> select_by_id i (jobs db) = Some j ->
  exists j',
    select_by_id i (jobs (run op db)) = Some j' /\
    ((FailureOf op db i j /\ attempts j' = attempts j + 1) \/
     ((exists now, op = DlqRetry i now) /\ attempts j' = 0) \/
     (~ FailureOf op db i j /\ (forall now, op <> DlqRetry i now) /\
      attempts j' = attempts j)).
Proof.
  intros Hpk Hj.
  destruct op as [|uuid now job|i0 now|key value|now|exec nc nd|s now];
    cbn [run].
  - exists j. split; [exact Hj|]. right. right.
    split; [|split; [discriminate | reflexivity]].
    intros [[? [? [? [? [H _]]]]]|[? [? [H _]]]]; discriminate.
  - exists j. split; [now apply enqueue_select|]. right. right.
    split; [|split; [discriminate | reflexivity]].
    intros [[? [? [? [? [H _]]]]]|[? [? [H _]]]]; discriminate.
  - eexists. split; [exact (dlq_retry_select i0 now db i j Hj)|].
    destruct (String.eqb i i0) eqn:E.
    + apply String.eqb_eq in E. subst i0. right. left.
      split; [now exists now | reflexivity].
    + apply String.eqb_neq in E. right. right.
      split; [|split; [congruence | reflexivity]].
      intros [[? [? [? [? [H _]]]]]|[? [? [H _]]]]; discriminate.
  - exists j. split; [exact Hj|]. right. right.
    split; [|split; [discriminate | reflexivity]].
    intros [[? [? [? [? [H _]]]]]|[? [? [H _]]]]; discriminate.
  - destruct (claim_select now (jobs db) i j Hj) as [j' [Hs Hj']].
    exists j'. split; [exact Hs|]. right. right.
    split; [|split; [discriminate|]].
    + intros [[? [? [? [? [H _]]]]]|[? [? [H _]]]]; discriminate.
    + destruct Hj' as [->|[_ ->]]; reflexivity.
  - destruct (claim_select nc (jobs db) i j Hj) as [j1 [Hs1 Hj1]].
    assert (A1 : attempts j1 = attempts j)
      by (destruct Hj1 as [->|[_ ->]]; reflexivity).
    destruct (workerTurn_cases exec nc nd db) as [[Hno E]|[i0 [result [db' E]]]].
    + exists j1. rewrite E. split; [exact Hs1|]. right. right.
      split; [|split; [discriminate | exact A1]].
      intros [[e [a [b [r [H [H' _]]]]]]|[? [? [H _]]]]; [|discriminate].
      inversion H; subst. exact (Hno _ _ H').
    + destruct (workerTurn_row _ _ _ _ _ _ _ E)
        as [j0 [job [Hj0 [Ha [Hm [Hs Hother]]]]]].
      rewrite E. simpl.
      destruct (String.eqb i i0) eqn:Ei.
      * apply String.eqb_eq in Ei. subst i0.
        rewrite Hj in Hj0. inversion Hj0; subst j0.
        eexists. split; [exact Hs|].
        unfold settle. destruct (succeeded result) eqn:Su.
        -- right. right. split; [|split; [discriminate | exact Ha]].
           intros [[e [a [b [r [H [H' Hf]]]]]]|[? [? [H _]]]]; [|discriminate].
           inversion H; subst. rewrite E in H'. simpl in H'.
           inversion H'; subst. congruence.
        -- left. split.
           ++ left. exists exec, nc, nd, result. rewrite E. auto.
           ++ rewrite <- Ha.
              destruct (attempts job + 1 >=? max_retries job); reflexivity.
      * apply String.eqb_neq in Ei.
        exists j1. split; [rewrite (Hother i Ei); exact Hs1|].
        right. right. split; [|split; [discriminate | exact A1]].
        intros [[e [a [b [r [H [H' _]]]]]]|[? [? [H _]]]]; [|discriminate].
        inversion H; subst. rewrite E in H'. simpl in H'.
        inversion H'; subst. congruence.
  - eexists. split; [rewrite recover_select by assumption; rewrite Hj; reflexivity|].
    destruct (stale (now - s * 1000) j) eqn:St.
    + left. apply stale_spec in St. split.
      * right. exists s, now. tauto.
      * unfold recovered.
        destruct (attempts j + 1 >=? max_retries j); reflexivity.
    + right. right. split; [|split; [discriminate | reflexivity]].
      intros [[? [? [? [? [H _]]]]]|[s' [now' [H [H1 H2]]]]]; [discriminate|].
      inversion H; subst.
      assert (X : stale (now' - s' * 1000) j = true) by (apply stale_spec; auto).
      congruence.
Qed.


(** ** The primary key is kept *)

Lemma record_result_ids now db job result :
  ids (record_result now db job result) = ids (jobs db).
Proof.
  rewrite record_result_eq. apply update_where_ids. apply settle_id.
Qed.

Lemma workerTurn_ids exec nc nd db :
  ids (jobs (snd (workerTurn exec nc nd db))) = ids (jobs db).
Proof.
  destruct (workerTurn_cases exec nc nd db) as [[_ E]|[i [result [db' E]]]].
  - rewrite E. apply claimTx_ids.
  - rewrite E. simpl. apply workerTurn_executed in E.
    destruct E as [t1 [job [Hc [_ [_ [_ ->]]]]]]. simpl.
    rewrite record_result_ids. simpl.
    pose proof (claimTx_ids nc (jobs db)) as X. now rewrite Hc in X.
Qed.

Lemma recover_ids staleSeconds now db :
  ids (jobs (snd (recover staleSeconds now db))) = ids (jobs db).
Proof.
  unfold recover. simpl. rewrite recover_fold. unfold ids.
  rewrite map_map. apply map_ext. intro j. apply fold_step_id.
Qed.

Lemma dlq_retry_ids i now db : ids (jobs (snd (dlq_retry i now db))) = ids (jobs db).
Proof.
  unfold dlq_retry. destruct (select_by_id i (jobs db)); [|reflexivity].
  simpl. apply update_where_ids. intro k. reflexivity.
Qed.

Lemma enqueue_pk uuid now job db :
  pk (jobs db) -> pk (jobs (snd (enqueue uuid now job db))).
Proof.
  intro Hpk. unfold enqueue.
  destruct (truthy_text (job_command job)); [|exact Hpk].
  destruct (resolve_max_retries job db); [|exact Hpk].
  destruct (existsb _ (jobs db)) eqn:E; [exact Hpk|].
  simpl. unfold pk, ids. rewrite map_app. simpl.
  apply NoDup_app.
  - exact Hpk.
  - repeat constructor. intros [].
  - intros a Ha [<-|[]]. apply existsb_has_id in E. contradiction.
Qed.

(** Every operation keeps the ids of the table distinct. *)
Lemma run_pk op db : pk (jobs db) -> pk (jobs (run op db)).
Proof.
  intro Hpk. destruct op; cbn [run].
  - exact Hpk.
  - now apply enqueue_pk.
  - unfold pk. now rewrite dlq_retry_ids.
  - exact Hpk.
  - unfold pk. simpl. now rewrite claimTx_ids.
  - unfold pk. now rewrite workerTurn_ids.
  - unfold pk. now rewrite recover_ids.
Qed.

Lemma reachable_pk db : reachable db -> pk (jobs db).
Proof.
  induction 1 as [|op db _ IH]; [constructor | now apply run_pk].
Qed.

(** ** Terminal rows *)

Lemma Eligible_not_terminal now j :
  Eligible now j -> state j <> completed /\ state j <> dead.
Proof.
  intros [H|[H _]]; rewrite H; split; discriminate.
Qed.

(** X20. No operation but the manual retry of its id touches a
    [completed] or [dead] row: enqueue, claim, a worker's turn, the
    recovery scan, init and config set leave it exactly as it is. *)
Lemma terminal_row_kept op db i j :
  pk (jobs db) -> select_by_id i (jobs db) = Some j ->
  state j = completed \/ state j = dead ->
  (forall now, op <> DlqRetry i now) ->
  select_by_id i (jobs (run op db)) = Some j.
Proof.
  intros Hpk Hj Ht Hop.
  assert (NC : claimable j = false)
    by (unfold claimable; destruct Ht as [-> | ->]; reflexivity).
  assert (C : forall now, select_by_id i (snd (claimTx now (jobs db))) = Some j).
  { intro now. destruct (claim_select now (jobs db) i j Hj) as [j' [Hs [->|[X _]]]];
      [exact Hs | congruence]. }
  destruct op as [|uuid now job|i0 now|key value|now|exec nc nd|s now];
    cbn [run].
  - exact Hj.
  - now apply enqueue_select.
  - rewrite (dlq_retry_select i0 now db i j Hj).
    destruct (String.eqb i i0) eqn:E; [|reflexivity].
    apply String.eqb_eq in E. subst i0. exfalso. exact (Hop now eq_refl).
  - exact Hj.
  - apply C.
  - destruct (workerTurn_cases exec nc nd db) as [[_ E]|[i0 [result [db' E]]]].
    + rewrite E. apply C.
    + rewrite E. simpl.
      destruct (workerTurn_row _ _ _ _ _ _ _ E) as [_ [_ [_ [_ [_ [_ Hother]]]]]].
      destruct (String.eqb i i0) eqn:Ei.
      * apply String.eqb_eq in Ei. subst i0. exfalso.
        apply workerTurn_executed in E.
        destruct E as [t1 [job [Hc _]]].
        assert (F : fst (claimTx nc (jobs db)) = Some i) by now rewrite Hc.
        destruct (claimTx_taken nc (jobs db) i Hpk F) as [j0 [Hj0 [Hel _]]].
        rewrite Hj in Hj0. inversion Hj0; subst j0.
        apply Eligible_not_terminal in Hel. tauto.
      * apply String.eqb_neq in Ei. rewrite (Hother i Ei). apply C.
  - rewrite recover_select by assumption. rewrite Hj. simpl.
    destruct (stale (now - s * 1000) j) eqn:St; [|reflexivity].
    apply stale_spec in St. destruct St as [St _].
    destruct Ht as [Ht|Ht]; congruence.
Qed.


(** The manual retry resets the row of its id whatever the state. *)
Lemma dlq_retry_any_state i now db j :
  select_by_id i (jobs db) = Some j ->
  fst (dlq_retry i now db) = Retried /\
  select_by_id i (jobs (snd (dlq_retry i now db))) = Some (reset now j).
Proof.
  intro Hj. split.
  - unfold dlq_retry. now rewrite Hj.
  - rewrite (dlq_retry_select i now db i j Hj). now rewrite String.eqb_refl.
Qed.

(** ** The error text of a recovered job *)

(** C5, at the failing input.  A worker claims [job5] at instant 1000
    and dies.  The scan an hour later, with the default threshold, counts
    one attempt and makes the job [failed], due two seconds later; its
    [last_error] is still unset.  The UPDATE of the retry branch does not
    write the column; only the branch to [dead] records the recovery. *)
Theorem recover_retry_keeps_last_error :
  let db1 := snd (enqueue "u-1" 0
                    (mkPayload (Some "job5") (Some "sleep 100") (Some 3))
                    (initDb emptyDb)) in
  let db2 := run (Claim 1000) db1 in
  exists r r',
    jobs db2 = [r] /\ state r = processing /\
    recover 3600 4000000 db2 = ([r], mkDB [r'] (config db2)) /\
    state r' = failed /\ attempts r' = 1 /\
    available_at r' = Some 4002000 /\
    last_error r' = None.
Proof.
  vm_compute. eexists _, _. repeat split; reflexivity.
Qed.

(** What the scan does write: the count, the state, the instants; the
    error text only on the way to [dead]. *)
Lemma recover_row_written staleSeconds now db r :
  pk (jobs db) -> In r (jobs db) ->
  state r = processing -> updated_at r <= now - staleSeconds * 1000 ->
  exists r',
    select_by_id (id r) (jobs (snd (recover staleSeconds now db))) = Some r' /\
    attempts r' = attempts r + 1 /\ updated_at r' = now /\
    (attempts r + 1 >= max_retries r ->
       state r' = dead /\ last_error r' = Some "stale-processing-recovered") /\
    (attempts r + 1 < max_retries r ->
       state r' = failed /\
       available_at r' = Some (retryAt (backoffBase db) (attempts r + 1) now) /\
       last_error r' = last_error r).
Proof.
  intros Hpk Hin Hst Hup. eexists.
  split; [now apply recover_stale_row|].
  unfold recovered.
  destruct (attempts r + 1 >=? max_retries r) eqn:G; simpl.
  - apply Z.geb_le in G. repeat split; auto; lia.
  - rewrite Z.geb_leb in G. apply Z.leb_gt in G. repeat split; auto; lia.
Qed.

(** ** One claim at a time *)

(** A job that a claim has taken is not taken by a later claim, as
    long as its row is still [processing]. *)
Lemma claim_exclusive now now' t i :
  pk t -> fst (claimTx now t) = Some i ->
  fst (claimTx now' (snd (claimTx now t))) <> Some i.
Proof.
  intros Hpk H H'.
  destruct (claimTx_taken now t i Hpk H) as [j [_ [_ [_ [_ [Hs _]]]]]].
  assert (Hpk' : pk (snd (claimTx now t))).
  { unfold pk. now rewrite claimTx_ids. }
  destruct (claimTx_taken now' _ i Hpk' H') as [j' [Hs' [Hel _]]].
  rewrite Hs in Hs'. inversion Hs'; subst j'.
  destruct Hel as [X|[X _]]; discriminate.
Qed.

(** A row that is [processing] is passed over by every claim. *)
Lemma claims_pass_processing nows t i j :
  pk t -> select_by_id i t = Some j -> state j = processing ->
  ~ In (Some i) (fst (claims nows t)).
Proof.
  revert t. induction nows as [|now rest IH]; intros t Hpk Hj Hst; simpl.
  - intros [].
  - destruct (claimTx now t) as [r t1] eqn:E.
    assert (Hpk1 : pk t1).
    { unfold pk. replace t1 with (snd (claimTx now t)) by now rewrite E.
      now rewrite claimTx_ids. }
    assert (Hj1 : select_by_id i t1 = Some j).
    { destruct (claim_select now t i j Hj) as [j' [Hs [->|[C _]]]].
      - now rewrite E in Hs.
      - unfold claimable in C. rewrite Hst in C. discriminate. }
    specialize (IH t1 Hpk1 Hj1 Hst).
    destruct (claims rest t1) as [rs t2]. simpl in *.
    intros [Hr|Hin]; [|contradiction].
    subst r.
    assert (F : fst (claimTx now t) = Some i) by now rewrite E.
    destruct (claimTx_taken now t i Hpk F) as [j0 [Hj0 [Hel _]]].
    rewrite Hj in Hj0. inversion Hj0; subst j0.
    destruct Hel as [X|[X _]]; congruence.
Qed.

Lemma granted_none i rs : ~ In (Some i) rs -> granted i rs = 0%nat.
Proof.
  unfold granted. induction rs as [|r rs IH]; simpl; intro H; [reflexivity|].
  destruct r as [x|].
  - destruct (String.eqb x i) eqn:E.
    + apply String.eqb_eq in E. subst x. exfalso. apply H. now left.
    + apply IH. intro Hin. apply H. now right.
  - apply IH. intro Hin. apply H. now right.
Qed.

(** X21. However many claim transactions run one after the other, a
    job is handed out by at most one of them. *)
Lemma claims_at_most_once nows t i :
  pk t -> (granted i (fst (claims nows t)) <= 1)%nat.
Proof.
  revert t. induction nows as [|now rest IH]; intros t Hpk; simpl;
    [unfold granted; simpl; lia|].
  destruct (claimTx now t) as [r t1] eqn:E.
  assert (Hpk1 : pk t1).
  { unfold pk. replace t1 with (snd (claimTx now t)) by now rewrite E.
    now rewrite claimTx_ids. }
  pose proof (IH t1 Hpk1) as IH1.
  pose proof (claims_pass_processing rest t1 i) as P.
  destruct (claims rest t1) as [rs t2]. simpl in *.
  unfold granted in *. simpl.
  destruct r as [x|]; [|exact IH1].
  destruct (String.eqb x i) eqn:Ex; [|exact IH1].
  apply String.eqb_eq in Ex. subst x.
  assert (F : fst (claimTx now t) = Some i) by now rewrite E.
  destruct (claimTx_taken now t i Hpk F) as [j0 [_ [_ [_ [_ [Hs _]]]]]].
  rewrite E in Hs. simpl in Hs.
  specialize (P _ Hpk1 Hs eq_refl).
  apply granted_none in P. unfold granted in P. simpl. rewrite P. lia.
Qed.

(** ** Rows are never deleted; counts are never negative *)

(** An operation keeps the ids of the table, or appends one fresh row
    with no attempt counted. *)
Lemma run_rows op db :
  ids (jobs (run op db)) = ids (jobs db) \/
  exists x,
    jobs (run op db) = jobs db ++ [x] /\
    attempts x = 0 /\ state x = pending /\ ~ In (id x) (ids (jobs db)).
Proof.
  destruct op as [|uuid now job|i0 now|key value|now|exec nc nd|s now];
    cbn [run].
  - now left.
  - destruct (enqueue uuid now job db) as [o db'] eqn:E.
    destruct o as [| |i].
    + left. unfold enqueue in E.
      destruct (truthy_text (job_command job)); [|inversion E; reflexivity].
      destruct (resolve_max_retries job db); [|discriminate].
      destruct (existsb _ (jobs db)); discriminate.
    + left. unfold enqueue in E.
      destruct (truthy_text (job_command job)); [|discriminate].
      destruct (resolve_max_retries job db); [|inversion E; reflexivity].
      destruct (existsb _ (jobs db)); [inversion E; reflexivity | discriminate].
    + right. apply enqueue_inv in E.
      destruct E as [cmd [m [_ [_ [Hn [_ ->]]]]]].
      eexists. simpl. split; [reflexivity|]. simpl. auto.
  - left. apply dlq_retry_ids.
  - now left.
  - left. simpl. apply claimTx_ids.
  - left. apply workerTurn_ids.
  - left. apply recover_ids.
Qed.

Lemma run_attempts_nonneg op db :
  pk (jobs db) ->
  (forall j, In j (jobs db) -> 0 <= attempts j) ->
  forall j', In j' (jobs (run op db)) -> 0 <= attempts j'.
Proof.
  intros Hpk Hnn j' Hj'.
  pose proof (run_pk op db Hpk) as Hpk'.
  pose proof (pk_select _ _ Hpk' Hj') as Hs'.
  destruct (select_by_id (id j') (jobs db)) as [j|] eqn:S.
  - destruct (run_attempts op db (id j') j Hpk S) as [j'' [Hs'' H]].
    rewrite Hs' in Hs''. inversion Hs''; subst j''.
    pose proof (select_by_id_In _ _ _ S) as [Hin _].
    specialize (Hnn j Hin).
    destruct H as [[_ A]|[[_ A]|[_ [_ A]]]]; lia.
  - apply select_by_id_None in S.
    destruct (run_rows op db) as [E|[x [E [A [_ _]]]]].
    + exfalso. apply S. rewrite <- E. unfold ids. now apply in_map.
    + rewrite E in Hj'. apply in_app_or in Hj'.
      destruct Hj' as [Hin|[<-|[]]]; [|lia].
      exfalso. apply S. unfold ids. now apply in_map.
Qed.

Lemma reachable_attempts db :
  reachable db -> forall j, In j (jobs db) -> 0 <= attempts j.
Proof.
  induction 1 as [|op db Hr IH]; [intros j []|].
  apply run_attempts_nonneg; [now apply reachable_pk | exact IH].
Qed.

(** ** The loop *)

(** The loop is the sequence of its turns. *)
Lemma workerLoop_run exec clock db :
  snd (workerLoop exec clock db) =
  fold_left (fun d c => run (Work exec (fst c) (snd c)) d) clock db.
Proof.
  revert db. induction clock as [|[nc nd] clock IH]; intro db; simpl;
    [reflexivity|].
  destruct (workerTurn exec nc nd db) as [o db1] eqn:E.
  specialize (IH db1).
  destruct (workerLoop exec clock db1) as [os db2]. simpl in *.
  now rewrite IH.
Qed.

Lemma workerLoop_pk exec clock db :
  pk (jobs db) -> pk (jobs (snd (workerLoop exec clock db))).
Proof.
  rewrite workerLoop_run. revert db.
  induction clock as [|c clock IH]; intros db H; simpl; [exact H|].
  apply IH. now apply (run_pk (Work exec (fst c) (snd c))).
Qed.

(** ** The scenarios of the fixtures *)

(** [job1] runs to [completed] with no attempt counted; [job2] fails,
    waits two seconds, fails again and is [dead] after two attempts. *)
Example scenario_complete_and_dead_letter :
  snd (workerLoop fixture_shell
         [(1000, 1100); (1200, 1300); (2000, 2000); (3300, 3400)]
         fixture_store)
  = mkDB
      [mkJob "job1" "echo Hello from job1" completed 0 3 10 1100 (Some 10) None;
       mkJob "job2" "exit 1" dead 2 2 20 3400 (Some 3300)
             (Some "Command failed: exit 1")]
      [("backoff-base", "2"); ("max-retries", "3")].
Proof. vm_compute. reflexivity. Qed.

(** The turn at instant 2000 finds [job2] not yet due and sleeps. *)
Example scenario_not_yet_due :
  fst (workerLoop fixture_shell
         [(1000, 1100); (1200, 1300); (2000, 2000); (3300, 3400)]
         fixture_store)
  = [Executed "job1" (mkResult (CodeNum 0) "" None);
     Executed "job2"
       (mkResult (CodeNum 1) ""
          (Some (mkExecError (Some (CodeNum 1)) "Command failed: exit 1")));
     Idle;
     Executed "job2"
       (mkResult (CodeNum 1) ""
          (Some (mkExecError (Some (CodeNum 1)) "Command failed: exit 1")))].
Proof. vm_compute. reflexivity. Qed.

Example fixture_store_reachable : reachable fixture_store.
Proof.
  unfold fixture_store. do 2 apply reach_run.
  apply (reach_run Init). apply reach_empty.
Qed.

(** ** The theorems at work on sample stores *)




(** * More of the program *)

(** ** Ordered listings *)

Lemma insert_by_perm key j l : Permutation (insert_by key j l) (j :: l).
Proof.
  induction l as [|k r IH]; simpl; [reflexivity|].
  destruct (key j <=? key k); [reflexivity|].
  rewrite IH. apply perm_swap.
Qed.

Lemma order_by_perm key l : Permutation (order_by key l) l.
Proof.
  induction l as [|j l IH]; simpl; [reflexivity|].
  rewrite insert_by_perm. now constructor.
Qed.

Lemma insert_by_sorted key j l :
  StronglySorted (fun a b => key a <= key b) l ->
  StronglySorted (fun a b => key a <= key b) (insert_by key j l).
Proof.
  induction l as [|k r IH]; simpl; intro H.
  - repeat constructor.
  - inversion H as [|? ? Hr Hk]; subst.
    destruct (key j <=? key k) eqn:E.
    + apply Z.leb_le in E. constructor; [exact H|].
      constructor; [exact E|].
      eapply Forall_impl; [|exact Hk]. simpl. intros a Ha. lia.
    + apply Z.leb_gt in E. constructor; [now apply IH|].
      assert (P : Permutation (insert_by key j r) (j :: r))
        by apply insert_by_perm.
      apply (Permutation_Forall (Permutation_sym P)).
      constructor; [lia | exact Hk].
Qed.

Lemma order_by_sorted key l :
  StronglySorted (fun a b => key a <= key b) (order_by key l).
Proof.
  induction l as [|j l IH]; simpl; [constructor | now apply insert_by_sorted].
Qed.

Lemma order_by_In key l j : In j (order_by key l) <-> In j l.
Proof.
  split; apply Permutation_in;
    [apply order_by_perm | apply Permutation_sym, order_by_perm].
Qed.

Lemma state_name_inj a b : state_name a = state_name b -> a = b.
Proof. destruct a, b; simpl; intro H; try reflexivity; discriminate. Qed.


Lemma print_rows_message {A} nothing (show : Job -> A) rows text :
  print_rows nothing show rows = Message text -> rows = [].
Proof. destruct rows; [reflexivity | discriminate]. Qed.

Lemma filter_length_perm (p : Job -> bool) l l' :
  Permutation l l' -> List.length (filter p l) = List.length (filter p l').
Proof.
  induction 1 as [|x l l' _ IH|x y l|l l' l'' _ IH1 _ IH2]; simpl.
  - reflexivity.
  - destruct (p x); simpl; congruence.
  - destruct (p x), (p y); reflexivity.
  - congruence.
Qed.

(** X1. [list --state s] shows the jobs whose state text is [s], each
    once, oldest first, and prints "No jobs found." exactly when there is
    none, as for a text that names no state; [list] without a state shows
    every job, oldest first. *)
Theorem list_by_state (s : string) (db : DB) :
  s <> "" ->
  (forall j, In j (list_rows (Some s) db) <->
             In j (jobs db) /\ state_name (state j) = s) /\
  Permutation (list_rows (Some s) db)
    (filter (fun j => String.eqb (state_name (state j)) s) (jobs db)) /\
  StronglySorted (fun a b => created_at a <= created_at b)
    (list_rows (Some s) db) /\
  (list_cmd (Some s) db = Message "No jobs found." <->
   forall j, In j (jobs db) -> state_name (state j) <> s) /\
  ((forall st, state_name st <> s) ->
   list_cmd (Some s) db = Message "No jobs found.") /\
  Permutation (list_rows None db) (jobs db) /\
  StronglySorted (fun a b => created_at a <= created_at b) (list_rows None db).
Proof.
  intro Hs.
  assert (T : truthy_text (Some s) = Some s).
  { simpl. destruct (String.eqb s "") eqn:E; [|reflexivity].
    apply String.eqb_eq in E. contradiction. }
  assert (I : forall j, In j (list_rows (Some s) db) <->
                        In j (jobs db) /\ state_name (state j) = s).
  { intro j. unfold list_rows. rewrite T, order_by_In, filter_In.
    now rewrite String.eqb_eq. }
  assert (M : list_cmd (Some s) db = Message "No jobs found." <->
              forall j, In j (jobs db) -> state_name (state j) <> s).
  { unfold list_cmd. split.
    - intros H j Hj E. apply print_rows_message in H.
      assert (X : In j (list_rows (Some s) db)) by (apply I; auto).
      rewrite H in X. contradiction.
    - intro H. destruct (list_rows (Some s) db) as [|r rows] eqn:E;
        [reflexivity|].
      exfalso. destruct (proj1 (I r) (or_introl eq_refl)) as [X1 X2].
      exact (H r X1 X2). }
  split; [exact I|]. split.
  { unfold list_rows. rewrite T. apply order_by_perm. }
  split.
  { unfold list_rows. rewrite T. apply order_by_sorted. }
  split; [exact M|]. split.
  { intro H. apply M. intros j _. apply H. }
  split.
  { unfold list_rows. simpl. apply order_by_perm. }
  unfold list_rows. simpl. apply order_by_sorted.
Qed.

Lemma list_by_state_witness :
  list_cmd (Some "done") fixture_store = Message "No jobs found." /\
  Permutation (list_rows None fixture_store) (jobs fixture_store).
Proof.
  assert (H : "done" <> "") by discriminate.
  destruct (list_by_state "done" fixture_store H) as [_ [_ [_ [_ [U [P _]]]]]].
  split; [|exact P].
  apply U. intros st. destruct st; discriminate.
Defined.


Lemma count_state_cons s j t :
  count_state s (j :: t) =
  (if State_eqb (state j) s then 1 else 0) + count_state s t.
Proof.
  unfold count_state. cbn [filter].
  destruct (State_eqb (state j) s); [|lia].
  cbn [List.length]. rewrite Nat2Z.inj_succ. lia.
Qed.

Lemma count_state_total t :
  count_state completed t + count_state dead t + count_state failed t +
  count_state pending t + count_state processing t
  = Z.of_nat (List.length t).
Proof.
  induction t as [|j t IH]; [reflexivity|].
  rewrite !count_state_cons. cbn [List.length]. rewrite Nat2Z.inj_succ.
  destruct (state j); cbn [State_eqb]; lia.
Qed.

Lemma count_state_nonneg s t : 0 <= count_state s t.
Proof. unfold count_state. lia. Qed.

(** X3. The summary of [status] has an entry for a state exactly when
    some job is in it, the entry counts the jobs [list --state] shows for
    that state, and the counts add up to the number of jobs. *)
Theorem status_summary (db : DB) (pid_file : option string) :
  (forall s,
     property (state_name s) (fst (status db pid_file)) =
     if count_state s (jobs db) =? 0 then None
     else Some (count_state s (jobs db))) /\
  (forall s,
     count_state s (jobs db) =
     Z.of_nat (List.length (list_rows (Some (state_name s)) db))) /\
  fold_right Z.add 0 (map snd (fst (status db pid_file)))
  = Z.of_nat (List.length (jobs db)).
Proof.
  split; [|split].
  - intro s. unfold status, summary. simpl fst.
    cbn [flat_map].
    destruct (count_state completed (jobs db) =? 0) eqn:E1;
    destruct (count_state dead (jobs db) =? 0) eqn:E2;
    destruct (count_state failed (jobs db) =? 0) eqn:E3;
    destruct (count_state pending (jobs db) =? 0) eqn:E4;
    destruct (count_state processing (jobs db) =? 0) eqn:E5;
    destruct s; cbn [app property state_name];
    rewrite ?E1, ?E2, ?E3, ?E4, ?E5; reflexivity.
  - intro s. unfold count_state, list_rows.
    assert (T : truthy_text (Some (state_name s)) = Some (state_name s))
      by (destruct s; reflexivity).
    rewrite T. f_equal.
    rewrite (Permutation_length (order_by_perm created_at _)).
    f_equal. apply filter_ext. intro j.
    destruct (state j), s; reflexivity.
  - rewrite <- count_state_total. unfold status, summary. simpl fst.
    cbn [flat_map].
    destruct (count_state completed (jobs db) =? 0) eqn:E1;
    destruct (count_state dead (jobs db) =? 0) eqn:E2;
    destruct (count_state failed (jobs db) =? 0) eqn:E3;
    destruct (count_state pending (jobs db) =? 0) eqn:E4;
    destruct (count_state processing (jobs db) =? 0) eqn:E5;
    cbn [app map fold_right snd];
    rewrite ?Z.eqb_eq in *; lia.
Qed.

(** ** The configuration table *)


Lemma select_value_None_keys key c :
  select_value key c = None <-> ~ In key (map fst c).
Proof.
  induction c as [|[k v] c IH]; simpl; [tauto|].
  destruct (String.eqb k key) eqn:E.
  - apply String.eqb_eq in E. split; [discriminate | intro H; tauto].
  - apply String.eqb_neq in E. rewrite IH. tauto.
Qed.

Lemma insert_or_ignore_keys key value c :
  NoDup (map fst c) -> NoDup (map fst (insert_or_ignore key value c)).
Proof.
  intro H. unfold insert_or_ignore.
  destruct (select_value key c) eqn:S; [exact H|].
  rewrite map_app. simpl. apply NoDup_app.
  - exact H.
  - repeat constructor. intros [].
  - intros a Ha [<-|[]]. apply select_value_None_keys in S. contradiction.
Qed.

Lemma insert_or_replace_keys key value c :
  NoDup (map fst c) -> NoDup (map fst (insert_or_replace key value c)).
Proof.
  intro H. unfold insert_or_replace. rewrite map_app. simpl.
  assert (F : forall c' : Config, NoDup (map fst c') ->
            NoDup (map fst (filter (fun kv => negb (String.eqb (fst kv) key)) c')) /\
            ~ In key (map fst (filter (fun kv => negb (String.eqb (fst kv) key)) c'))).
  { induction c' as [|[k v] c' IH]; simpl; intro Hnd.
    - split; [constructor | tauto].
    - inversion Hnd as [|? ? Hk Hc']; subst.
      destruct (IH Hc') as [I1 I2].
      destruct (String.eqb k key) eqn:E; simpl; [tauto|].
      apply String.eqb_neq in E. split.
      + constructor; [|exact I1]. intro Hin. apply Hk.
        apply in_map_iff in Hin. destruct Hin as [kv [Ekv Hkv]].
        apply filter_In in Hkv. apply in_map_iff. exists kv. tauto.
      + intros [X|X]; [congruence | contradiction]. }
  destruct (F c H) as [F1 F2].
  apply NoDup_app.
  - exact F1.
  - repeat constructor. intros [].
  - intros a Ha [<-|[]]. contradiction.
Qed.


(** X5. [init] on a store that is already initialised changes nothing;
    it never overwrites a key that is set, it seeds [backoff-base] with 2
    and [max-retries] with 3 where they are missing, and it keeps the keys
    distinct and the jobs as they are. *)
Theorem initDb_seeds_once (db : DB) :
  initDb (initDb db) = initDb db /\
  (forall key value fallback,
     select_value key (config db) = Some value ->
     getConfig (initDb db) key fallback = value) /\
  (forall fallback,
     select_value "backoff-base" (config db) = None ->
     getConfig (initDb db) "backoff-base" fallback = "2") /\
  (forall fallback,
     select_value "max-retries" (config db) = None ->
     getConfig (initDb db) "max-retries" fallback = "3") /\
  (NoDup (map fst (config db)) -> NoDup (map fst (config (initDb db)))) /\
  jobs (initDb db) = jobs db.
Proof.
  split; [|split; [|split; [|split; [|split]]]].
  - unfold initDb. cbn [jobs config]. f_equal.
    set (c1 := insert_or_ignore "backoff-base" "2" (config db)).
    set (c2 := insert_or_ignore "max-retries" "3" c1).
    assert (B : exists v, select_value "backoff-base" c2 = Some v).
    { unfold c2, c1. rewrite !insert_or_ignore_select.
      destruct (select_value "backoff-base" (config db));
        eexists; reflexivity. }
    assert (M : exists v, select_value "max-retries" c2 = Some v).
    { unfold c2. rewrite insert_or_ignore_select.
      destruct (select_value "max-retries" c1); eexists; reflexivity. }
    destruct B as [vb B]. destruct M as [vm M].
    unfold insert_or_ignore at 2. rewrite B.
    unfold insert_or_ignore at 1. now rewrite M.
  - intros key value fallback H. rewrite initDb_getConfig. now rewrite H.
  - intros fallback H. rewrite initDb_getConfig. now rewrite H.
  - intros fallback H. rewrite initDb_getConfig. now rewrite H.
  - intro H. unfold initDb. cbn [config].
    now apply insert_or_ignore_keys, insert_or_ignore_keys.
  - reflexivity.
Qed.

(** ** What an operation does to a row *)

(** A worker's turn, seen from the row of [i]: its command ran and
    the result is recorded; or the row is untouched; or, for the empty id
    alone, it is claimed and then passed over. *)
Lemma workerTurn_row_cases exec nc nd db i j :
  pk (jobs db) -> select_by_id i (jobs db) = Some j ->
  (exists result,
     fst (workerTurn exec nc nd db) = Executed i result /\
     claimable j = true /\
     select_by_id i (jobs (snd (workerTurn exec nc nd db))) =
       Some (settle nd (mkDB (snd (claimTx nc (jobs db))) (config db))
                    (set_processing nc j) result (set_processing nc j))) \/
  ((forall result, fst (workerTurn exec nc nd db) <> Executed i result) /\
   select_by_id i (jobs (snd (workerTurn exec nc nd db))) = Some j) \/
  (fst (workerTurn exec nc nd db) = Idle /\ i = "" /\ claimable j = true /\
   select_by_id i (jobs (snd (workerTurn exec nc nd db))) =
     Some (set_processing nc j)).
Proof.
  intros Hpk Hj. unfold workerTurn.
  destruct (claimTx nc (jobs db)) as [jobId t1] eqn:Hc.
  destruct jobId as [i0|].
  - assert (F : fst (claimTx nc (jobs db)) = Some i0) by now rewrite Hc.
    destruct (claimTx_taken nc (jobs db) i0 Hpk F)
      as [j0 [Hj0 [Hel [_ [_ [Hs1 Hoth]]]]]].
    rewrite Hc in Hs1, Hoth. cbn [snd] in Hs1, Hoth.
    assert (Hcl : claimable j0 = true)
      by (apply (eligible_claimable nc), eligible_spec, Hel).
    cbn [truthy_text].
    destruct (String.eqb i0 "") eqn:E0.
    + apply String.eqb_eq in E0. subst i0. cbn [fst snd jobs].
      destruct (String.eqb i "") eqn:Ei.
      * apply String.eqb_eq in Ei. subst i.
        rewrite Hj in Hj0. inversion Hj0; subst j0.
        right. right. auto.
      * apply String.eqb_neq in Ei. right. left.
        split; [discriminate|]. now rewrite (Hoth i Ei).
    + rewrite Hs1. cbn [fst snd jobs].
      destruct (String.eqb i i0) eqn:Ei.
      * apply String.eqb_eq in Ei. subst i0.
        rewrite Hj in Hj0. inversion Hj0; subst j0.
        left. exists (runCommand exec (command (set_processing nc j))).
        pose proof (select_by_id_In _ _ _ Hj) as [_ Hid].
        split; [cbn [id set_processing]; now rewrite Hid|].
        split; [exact Hcl|].
        rewrite record_result_select. cbn [jobs id set_processing].
        now rewrite Hid, String.eqb_refl, Hs1.
      * apply String.eqb_neq in Ei. right. left. split.
        -- intros result H. inversion H as [[H1 H2]].
           apply select_by_id_In in Hj0. destruct Hj0 as [_ Hid]. congruence.
        -- rewrite record_result_select. cbn [jobs id set_processing].
           assert (X : String.eqb i (id j0) = false).
           { apply String.eqb_neq.
             apply select_by_id_In in Hj0. destruct Hj0 as [_ Hid]. congruence. }
           rewrite X. now rewrite (Hoth i Ei).
  - assert (F : fst (claimTx nc (jobs db)) = None) by now rewrite Hc.
    destruct (claimTx_nothing nc (jobs db) Hpk F) as [_ Hsame].
    rewrite Hc in Hsame. cbn [snd] in Hsame. subst t1.
    cbn [truthy_text fst snd jobs]. right. left.
    split; [discriminate | exact Hj].
Qed.

(** Each operation leaves the row of an id in the table, as it was or
    rewritten by one of the UPDATEs. *)
Lemma run_row op db i j :
  pk (jobs db) -> select_by_id i (jobs db) = Some j ->
  exists j', select_by_id i (jobs (run op db)) = Some j' /\ RowStep op db j j'.
Proof.
  intros Hpk Hj.
  pose proof (select_by_id_In _ _ _ Hj) as [_ Hid].
  destruct op as [|uuid now job|i0 now|key value|now|exec nc nd|s now];
    cbn [run].
  - exists j. split; [exact Hj | constructor].
  - exists j. split; [now apply enqueue_select | constructor].
  - eexists. split; [exact (dlq_retry_select i0 now db i j Hj)|].
    destruct (String.eqb i i0) eqn:E; [|constructor].
    apply String.eqb_eq in E. subst i0. apply step_reset. now rewrite Hid.
  - exists j. split; [exact Hj | constructor].
  - destruct (claim_select now (jobs db) i j Hj) as [j' [Hs [->|[C ->]]]];
      eexists; (split; [exact Hs|]); [constructor|].
    apply step_claim; auto.
  - destruct (workerTurn_row_cases exec nc nd db i j Hpk Hj)
      as [[result [Ho [Hcl Hs]]]|[[_ Hs]|[_ [_ [Hcl Hs]]]]];
      eexists; (split; [exact Hs|]).
    + apply (step_settle _ _ _ exec nc nd result); auto. now rewrite Hid.
    + constructor.
    + apply step_claim; [exact Hcl|]. right. eauto.
  - eexists.
    split; [rewrite recover_select by assumption; rewrite Hj; reflexivity|].
    destruct (stale (now - s * 1000) j) eqn:St; [|constructor].
    now apply (step_recover _ _ _ s now).
Qed.

Lemma RowStep_same_job op db j j' : RowStep op db j j' -> same_job j j'.
Proof.
  unfold same_job. intros [|now _|now _ _|exec nc nd result _ _ _|s now _ _];
    try (repeat split; reflexivity).
  - unfold settle. destruct (succeeded result); [repeat split; reflexivity|].
    destruct (_ >=? _); repeat split; reflexivity.
  - unfold recovered. destruct (_ >=? _); repeat split; reflexivity.
Qed.

Lemma RowStep_shaped op db j j' : shaped j -> RowStep op db j j' -> shaped j'.
Proof.
  unfold shaped. intros [H0 [Hav [Hp [Hf Hd]]]].
  intros [|now _|now _ _|exec nc nd result _ _ _|s now _ _].
  - auto.
  - cbn. repeat split; try lia; try discriminate.
  - cbn. repeat split; auto; try lia; discriminate.
  - unfold settle. destruct (succeeded result).
    + cbn. repeat split; auto; try lia; discriminate.
    + cbn [attempts max_retries set_processing].
      destruct (attempts j + 1 >=? max_retries j) eqn:G.
      * apply Z.geb_le in G. cbn.
        repeat split; auto; try lia; discriminate.
      * rewrite Z.geb_leb in G. apply Z.leb_gt in G. cbn.
        repeat split; try lia; discriminate.
  - unfold recovered.
    destruct (attempts j + 1 >=? max_retries j) eqn:G.
    + apply Z.geb_le in G. cbn.
      repeat split; auto; try lia; discriminate.
    + rewrite Z.geb_leb in G. apply Z.leb_gt in G. cbn.
      repeat split; try lia; discriminate.
Qed.

(** X6. No operation deletes a job or rewrites what it is: the row of
    an id is still in the table after any operation, with the same
    [command], [max_retries] and [created_at]; the table only grows, and
    by one row at most. *)
Theorem rows_outlive_operations (op : Op) (db : DB) (i : string) (j : Job) :
  pk (jobs db) -> select_by_id i (jobs db) = Some j ->
  (exists j',
     select_by_id i (jobs (run op db)) = Some j' /\
     id j' = id j /\ command j' = command j /\
     max_retries j' = max_retries j /\ created_at j' = created_at j) /\
  (exists l, ids (jobs (run op db)) = ids (jobs db) ++ l /\
             (List.length l <= 1)%nat).
Proof.
  intros Hpk Hj. split.
  - destruct (run_row op db i j Hpk Hj) as [j' [Hs Hr]].
    exists j'. split; [exact Hs|]. exact (RowStep_same_job _ _ _ _ Hr).
  - destruct (run_rows op db) as [E|[x [E _]]].
    + exists []. rewrite E, app_nil_r. split; [reflexivity | simpl; lia].
    + exists [id x]. rewrite E. unfold ids. rewrite map_app.
      split; [reflexivity | simpl; lia].
Qed.

Lemma rows_outlive_operations_witness :
  exists j',
    select_by_id "job1"
      (jobs (run (Work fixture_shell 1000 1100) fixture_store)) = Some j' /\
    command j' = "echo Hello from job1".
Proof.
  assert (Hpk : pk (jobs fixture_store)).
  { vm_compute. repeat constructor; simpl; intuition discriminate. }
  destruct (rows_outlive_operations (Work fixture_shell 1000 1100) fixture_store
              "job1"
              (mkJob "job1" "echo Hello from job1" pending 0 3 10 10 (Some 10) None)
              Hpk eq_refl)
    as [[j' [Hs [_ [Hc _]]]] _].
  exists j'. split; [exact Hs | exact Hc].
Defined.

Lemma workerTurn_config exec nc nd db :
  config (snd (workerTurn exec nc nd db)) = config db.
Proof.
  unfold workerTurn. destruct (claimTx nc (jobs db)) as [jobId t1].
  destruct (truthy_text jobId) as [i|]; [|reflexivity].
  destruct (select_by_id i t1); reflexivity.
Qed.

Lemma enqueue_config uuid now job db :
  config (snd (enqueue uuid now job db)) = config db.
Proof.
  unfold enqueue.
  destruct (truthy_text (job_command job)); [|reflexivity].
  destruct (resolve_max_retries job db); [|reflexivity].
  destruct (existsb _ (jobs db)); reflexivity.
Qed.

Lemma run_config_keys op db :
  NoDup (map fst (config db)) -> NoDup (map fst (config (run op db))).
Proof.
  intro H. destruct op; cbn [run].
  - unfold initDb. cbn [config].
    now apply insert_or_ignore_keys, insert_or_ignore_keys.
  - now rewrite enqueue_config.
  - unfold dlq_retry. destruct (select_by_id i (jobs db)); exact H.
  - now apply insert_or_replace_keys.
  - exact H.
  - now rewrite workerTurn_config.
  - exact H.
Qed.

(** A row whose id was not in the table is the row [enqueue] wrote. *)
Lemma run_fresh_shaped op db j' :
  In j' (jobs (run op db)) -> ~ In (id j') (ids (jobs db)) -> shaped j'.
Proof.
  intros Hin Hnew.
  assert (K : ids (jobs (run op db)) = ids (jobs db) -> False).
  { intro E. apply Hnew. rewrite <- E. unfold ids. now apply in_map. }
  destruct op as [|uuid now job|i0 now|key value|now|exec nc nd|s now];
    cbn [run] in *.
  - now destruct K.
  - destruct (enqueue uuid now job db) as [o db'] eqn:E.
    destruct o as [| |i].
    + exfalso. apply Hnew. unfold enqueue in E.
      destruct (truthy_text (job_command job)).
      * destruct (resolve_max_retries job db); [|discriminate].
        destruct (existsb _ (jobs db)); discriminate.
      * inversion E; subst. unfold ids. now apply in_map.
    + exfalso. apply Hnew. unfold enqueue in E.
      destruct (truthy_text (job_command job)); [|discriminate].
      destruct (resolve_max_retries job db).
      * destruct (existsb _ (jobs db)); [|discriminate].
        inversion E; subst. unfold ids. now apply in_map.
      * inversion E; subst. unfold ids. now apply in_map.
    + apply enqueue_inv in E. destruct E as [cmd [m [_ [_ [_ [_ ->]]]]]].
      cbn [snd jobs] in Hin. apply in_app_or in Hin.
      destruct Hin as [Hin|[<-|[]]].
      * exfalso. apply Hnew. unfold ids. now apply in_map.
      * unfold shaped. cbn. repeat split; try lia; discriminate.
  - exfalso. apply K, dlq_retry_ids.
  - now destruct K.
  - exfalso. apply K. cbn [jobs]. apply claimTx_ids.
  - exfalso. apply K, workerTurn_ids.
  - exfalso. apply K, recover_ids.
Qed.

Lemma run_shaped op db :
  pk (jobs db) -> (forall j, In j (jobs db) -> shaped j) ->
  forall j', In j' (jobs (run op db)) -> shaped j'.
Proof.
  intros Hpk Hsh j' Hj'.
  pose proof (pk_select _ _ (run_pk op db Hpk) Hj') as Hs'.
  destruct (select_by_id (id j') (jobs db)) as [j|] eqn:S.
  - destruct (run_row op db (id j') j Hpk S) as [j'' [Hs'' Hr]].
    rewrite Hs' in Hs''. inversion Hs''; subst j''.
    apply (RowStep_shaped op db j); [|exact Hr].
    apply Hsh. now apply (select_by_id_In _ _ _ S).
  - apply (run_fresh_shaped op db); [exact Hj'|].
    now apply select_by_id_None.
Qed.

(** X7. In every store the operations can build from the empty one,
    the ids of the jobs are distinct, the keys of the configuration are
    distinct, and every job has a count of attempts that is not negative
    and an [available_at]; a [pending] job has no attempt counted, a
    [failed] job has at least one and fewer than [max_retries], and a
    [dead] job has at least one, no fewer than [max_retries], and an error
    text. *)
Theorem reachable_store_shape (db : DB) :
  reachable db ->
  NoDup (ids (jobs db)) /\
  NoDup (map fst (config db)) /\
  forall j, In j (jobs db) ->
    0 <= attempts j /\
    available_at j <> None /\
    (state j = pending -> attempts j = 0) /\
    (state j = failed -> 1 <= attempts j < max_retries j) /\
    (state j = dead -> 1 <= attempts j /\ max_retries j <= attempts j /\
                       last_error j <> None).
Proof.
  induction 1 as [|op db Hr [IH1 [IH2 IH3]]].
  - split; [constructor|]. split; [constructor|]. intros j [].
  - split; [now apply run_pk|]. split; [now apply run_config_keys|].
    exact (run_shaped op db IH1 IH3).
Qed.

Lemma reachable_store_shape_witness :
  NoDup (ids (jobs fixture_store)) /\
  NoDup (map fst (config fixture_store)).
Proof.
  destruct (reachable_store_shape fixture_store) as [H1 [H2 _]].
  - unfold fixture_store. do 2 apply reach_run.
    apply (reach_run Init). apply reach_empty.
  - split; assumption.
Defined.

(** ** The worker loop *)

Lemma db_eta db : mkDB (jobs db) (config db) = db.
Proof. destruct db. reflexivity. Qed.

(** X8. While no job is [pending] and no [failed] job is due at the
    instants of its claims, the loop sleeps through every turn and leaves
    the store as it found it. *)
Theorem worker_idles_without_work (exec : Shell) (clock : list (Z * Z)) (db : DB) :
  (forall c j, In c clock -> In j (jobs db) -> ~ Eligible (fst c) j) ->
  workerLoop exec clock db = (map (fun _ => Idle) clock, db).
Proof.
  induction clock as [|[nc nd] clock IH]; intro H; [reflexivity|].
  cbn [workerLoop map].
  assert (E : filter (eligible nc) (jobs db) = []).
  { destruct (filter (eligible nc) (jobs db)) as [|k l] eqn:F; [reflexivity|].
    exfalso. assert (X : In k (filter (eligible nc) (jobs db)))
      by (rewrite F; now left).
    apply filter_In in X. destruct X as [X1 X2].
    apply (H (nc, nd) k (or_introl eq_refl) X1). now apply eligible_spec. }
  assert (T : workerTurn exec nc nd db = (Idle, db)).
  { unfold workerTurn, claimTx. rewrite E. cbn. now rewrite db_eta. }
  rewrite T, IH; [reflexivity|].
  intros c j Hc Hj. apply H; [now right | exact Hj].
Qed.

Lemma worker_idles_without_work_witness :
  workerLoop fixture_shell [(1000, 1100); (2000, 2100)]
    (mkDB [mkJob "job2" "exit 1" failed 1 3 0 500 (Some 9000) (Some "error")] [])
  = ([Idle; Idle],
     mkDB [mkJob "job2" "exit 1" failed 1 3 0 500 (Some 9000) (Some "error")] []).
Proof.
  apply (worker_idles_without_work fixture_shell [(1000, 1100); (2000, 2100)]).
  intros c j Hc [<-|[]] [E|[_ [a [Ha Hle]]]]; [discriminate|].
  inversion Ha; subst a.
  destruct Hc as [<-|[<-|[]]]; vm_compute in Hle; apply Hle; reflexivity.
Defined.

Lemma budget_nonneg j : 0 <= budget j.
Proof. unfold budget. destruct (claimable j); lia. Qed.

(** One turn spends the budget of a row when it runs its command. *)
Lemma workerTurn_budget exec nc nd db i j :
  pk (jobs db) -> select_by_id i (jobs db) = Some j ->
  exists j',
    select_by_id i (jobs (snd (workerTurn exec nc nd db))) = Some j' /\
    (if executed i (fst (workerTurn exec nc nd db)) then 1 else 0) + budget j'
    <= budget j.
Proof.
  intros Hpk Hj.
  destruct (workerTurn_row_cases exec nc nd db i j Hpk Hj)
    as [[result [Ho [Hcl Hs]]]|[[Hno Hs]|[Ho [_ [Hcl Hs]]]]];
    eexists; (split; [exact Hs|]).
  - rewrite Ho. cbn [executed]. rewrite String.eqb_refl.
    unfold budget at 2. rewrite Hcl.
    unfold settle. destruct (succeeded result).
    + unfold budget. cbn [claimable state set_completed]. lia.
    + cbn [attempts max_retries set_processing].
      destruct (attempts j + 1 >=? max_retries j) eqn:G.
      * unfold budget. cbn [claimable state set_dead]. lia.
      * rewrite Z.geb_leb in G. apply Z.leb_gt in G.
        unfold budget.
        cbn [claimable state set_failed attempts max_retries set_processing].
        lia.
  - assert (X : executed i (fst (workerTurn exec nc nd db)) = false).
    { destruct (fst (workerTurn exec nc nd db)) as [| |x r] eqn:E;
        try reflexivity.
      cbn. destruct (String.eqb x i) eqn:Ex; [|reflexivity].
      apply String.eqb_eq in Ex. subst x. exfalso. exact (Hno r eq_refl). }
    rewrite X. lia.
  - rewrite Ho. cbn [executed].
    pose proof (budget_nonneg j). unfold budget at 1.
    cbn [claimable state set_processing]. lia.
Qed.

Lemma workerLoop_budget exec clock db i j :
  pk (jobs db) -> select_by_id i (jobs db) = Some j ->
  Z.of_nat (executions i (fst (workerLoop exec clock db))) <= budget j.
Proof.
  revert db j. induction clock as [|[nc nd] clock IH]; intros db j Hpk Hj.
  - cbn. apply budget_nonneg.
  - cbn [workerLoop].
    destruct (workerTurn_budget exec nc nd db i j Hpk Hj) as [j' [Hs Hb]].
    pose proof (run_pk (Work exec nc nd) db Hpk) as Hpk'. cbn [run] in Hpk'.
    destruct (workerTurn exec nc nd db) as [o db1]. cbn [fst snd] in *.
    specialize (IH db1 j' Hpk' Hs).
    destruct (workerLoop exec clock db1) as [os db2]. cbn [fst] in *.
    unfold executions in *. cbn [filter].
    destruct (executed i o); [cbn [List.length]; rewrite Nat2Z.inj_succ|]; lia.
Qed.

(** X9. However long a worker loops, it runs the command of a job at
    most [max_retries - attempts] times, once when that is less than one,
    and never when the job is [processing], [completed] or [dead]. *)
Theorem retry_budget (exec : Shell) (clock : list (Z * Z)) (db : DB)
    (i : string) (j : Job) :
  pk (jobs db) -> select_by_id i (jobs db) = Some j ->
  Z.of_nat (executions i (fst (workerLoop exec clock db)))
    <= Z.max 1 (max_retries j - attempts j) /\
  (state j <> pending -> state j <> failed ->
   executions i (fst (workerLoop exec clock db)) = 0%nat).
Proof.
  intros Hpk Hj.
  pose proof (workerLoop_budget exec clock db i j Hpk Hj) as H.
  unfold budget in H. split.
  - destruct (claimable j); lia.
  - intros Hp Hf.
    assert (C : claimable j = false).
    { unfold claimable. destruct (state j); congruence. }
    rewrite C in H. lia.
Qed.

Lemma retry_budget_witness :
  (Z.of_nat (executions "job2"
     (fst (workerLoop fixture_shell
             [(1000, 1100); (1200, 1300); (3300, 3400); (9000, 9100)]
             fixture_store))) <= 2).
Proof.
  assert (Hpk : pk (jobs fixture_store)).
  { vm_compute. repeat constructor; simpl; intuition discriminate. }
  exact (proj1 (retry_budget fixture_shell
                  [(1000, 1100); (1200, 1300); (3300, 3400); (9000, 9100)]
                  fixture_store "job2"
                  (mkJob "job2" "exit 1" pending 0 2 20 20 (Some 20) None)
                  Hpk eq_refl)).
Defined.

(** One turn leaves in [processing] only what it found there. *)
Lemma workerTurn_processing exec nc nd db i j' :
  pk (jobs db) -> ~ In "" (ids (jobs db)) ->
  select_by_id i (jobs (snd (workerTurn exec nc nd db))) = Some j' ->
  state j' = processing ->
  select_by_id i (jobs db) = Some j'.
Proof.
  intros Hpk Hne Hs' Hst.
  destruct (select_by_id i (jobs db)) as [j|] eqn:Hj.
  - destruct (workerTurn_row_cases exec nc nd db i j Hpk Hj)
      as [[result [_ [_ Hs]]]|[[_ Hs]|[_ [Hi _]]]].
    + rewrite Hs in Hs'. inversion Hs' as [E]. exfalso.
      rewrite <- E in Hst. unfold settle in Hst.
      destruct (succeeded result); [discriminate|].
      destruct (_ >=? _); discriminate.
    + congruence.
    + exfalso. apply Hne. subst i.
      apply select_by_id_In in Hj. destruct Hj as [Hin Hid].
      rewrite <- Hid. unfold ids. now apply in_map.
  - exfalso. apply select_by_id_None in Hj. apply Hj.
    rewrite <- (workerTurn_ids exec nc nd db).
    apply select_by_id_In in Hs'. destruct Hs' as [Hin Hid].
    rewrite <- Hid. unfold ids. now apply in_map.
Qed.

(** X10. A worker that stops between turns abandons nothing: when no
    id is empty, a job that is [processing] once the loop has ended was
    [processing] before the loop began, and the loop did not touch it. *)
Theorem worker_leaves_none_processing (exec : Shell) (clock : list (Z * Z))
    (db : DB) (i : string) (j' : Job) :
  pk (jobs db) -> ~ In "" (ids (jobs db)) ->
  select_by_id i (jobs (snd (workerLoop exec clock db))) = Some j' ->
  state j' = processing ->
  select_by_id i (jobs db) = Some j'.
Proof.
  revert db. induction clock as [|[nc nd] clock IH]; intros db Hpk Hne Hs Hst.
  - exact Hs.
  - cbn [workerLoop] in Hs.
    pose proof (run_pk (Work exec nc nd) db Hpk) as Hpk'. cbn [run] in Hpk'.
    pose proof (workerTurn_ids exec nc nd db) as Hids.
    pose proof (workerTurn_processing exec nc nd db i j' Hpk Hne) as T.
    destruct (workerTurn exec nc nd db) as [o db1]. cbn [snd] in *.
    assert (Hne' : ~ In "" (ids (jobs db1))) by now rewrite Hids.
    specialize (IH db1 Hpk' Hne').
    destruct (workerLoop exec clock db1) as [os db2]. cbn [snd] in *.
    apply T; [|exact Hst]. now apply IH.
Qed.

Lemma worker_leaves_none_processing_witness :
  select_by_id "job1" (jobs (run (Claim 500) fixture_store)) =
  Some (mkJob "job1" "echo Hello from job1" processing 0 3 10 500 (Some 10) None).
Proof.
  apply (worker_leaves_none_processing fixture_shell [(1000, 1100)]
           (run (Claim 500) fixture_store)).
  - vm_compute. repeat constructor; simpl; intuition discriminate.
  - vm_compute. intuition discriminate.
  - vm_compute. reflexivity.
  - reflexivity.
Defined.


(** ** What a turn records *)

Lemma runCommand_succeeded exec cmd :
  succeeded (runCommand exec cmd) = true <-> error (runCommand exec cmd) = None.
Proof.
  unfold runCommand, succeeded. destruct (exec cmd) as [[e|] err]; cbn.
  - split; [|discriminate].
    destruct (err_code e) as [[n|t]|]; cbn; try discriminate.
    + destruct (n =? 0) eqn:E; [discriminate|]. cbn. congruence.
    + destruct (String.eqb t ""); discriminate.
  - split; reflexivity.
Qed.





(** X13. A run that succeeds writes the state and [updated_at] of its
    job and nothing else: no attempt is counted, and the error text and
    the due instant of an earlier failure stay. *)
Theorem success_keeps_the_row (exec : Shell) (now_claim now_done : Z) (db : DB)
    (i : string) (j : Job) (result : Result) :
  pk (jobs db) -> select_by_id i (jobs db) = Some j ->
  fst (workerTurn exec now_claim now_done db) = Executed i result ->
  error result = None ->
  select_by_id i (jobs (snd (workerTurn exec now_claim now_done db))) =
  Some (mkJob (id j) (command j) completed (attempts j) (max_retries j)
              (created_at j) now_done (available_at j) (last_error j)).
Proof.
  intros Hpk Hj Ho He.
  destruct (workerTurn exec now_claim now_done db) as [o db'] eqn:E.
  cbn [fst snd] in *. subst o.
  pose proof (workerTurn_executed _ _ _ _ _ _ _ E) as [t1 [job [_ [_ [_ [Hres _]]]]]].
  assert (Su : succeeded result = true).
  { rewrite Hres. apply runCommand_succeeded. now rewrite <- Hres. }
  destruct (workerTurn_row_cases exec now_claim now_done db i j Hpk Hj)
    as [[r [Ho [_ Hs]]]|[[Hno _]|[Ho _]]]; rewrite E in *; cbn [fst snd] in *.
  - inversion Ho; subst r. rewrite Hs. unfold settle. now rewrite Su.
  - exfalso. exact (Hno result eq_refl).
  - discriminate.
Qed.

Lemma success_keeps_the_row_witness :
  select_by_id "job1"
    (jobs (snd (workerTurn fixture_shell 1000 1100 fixture_store))) =
  Some (mkJob "job1" "echo Hello from job1" completed 0 3 10 1100 (Some 10) None).
Proof.
  apply (success_keeps_the_row fixture_shell 1000 1100 fixture_store "job1"
           (mkJob "job1" "echo Hello from job1" pending 0 3 10 10 (Some 10) None)
           (mkResult (CodeNum 0) "" None)).
  - vm_compute. repeat constructor; simpl; intuition discriminate.
  - reflexivity.
  - vm_compute. reflexivity.
  - reflexivity.
Defined.

(** ** Submissions, retries and recoveries *)

Lemma existsb_has_id_true i t : In i (ids t) -> existsb (has_id i) t = true.
Proof.
  unfold ids. intro H. apply in_map_iff in H. destruct H as [j [E Hj]].
  apply existsb_exists. exists j. split; [exact Hj | now apply has_id_true].
Qed.

Lemma select_by_id_last i t x :
  ~ In i (ids t) -> id x = i -> select_by_id i (t ++ [x]) = Some x.
Proof.
  unfold select_by_id, ids. intros Hn Hx.
  induction t as [|k t IH]; simpl in *.
  - assert (B : has_id i x = true) by now apply has_id_true.
    now rewrite B.
  - assert (B : has_id i k = false) by (apply has_id_false; tauto).
    rewrite B. apply IH. tauto.
Qed.

Lemma select_by_id_other i t x :
  id x <> i -> select_by_id i (t ++ [x]) = select_by_id i t.
Proof.
  unfold select_by_id. intro Hx.
  induction t as [|k t IH]; simpl.
  - assert (B : has_id i x = false) by now apply has_id_false.
    now rewrite B.
  - destruct (has_id i k); [reflexivity | exact IH].
Qed.

(** X14. [enqueue] never overwrites: under an id that is in the table,
    and under a [max-retries] setting that is no number when the payload
    names none, the store is left as it was and nothing is enqueued.
    Otherwise a payload with a command is stored under its id, or the
    uuid when it has none, as a [pending] job with no attempt counted,
    which a lookup by that id returns; the rows of other ids are as
    before. *)
Theorem enqueue_insert_or_refuse (uuid : string) (now : Z) (job : Payload) (db : DB) :
  let i := match truthy_text (job_id job) with Some x => x | None => uuid end in
  (In i (ids (jobs db)) ->
   snd (enqueue uuid now job db) = db /\
   forall x, fst (enqueue uuid now job db) <> Enqueued x) /\
  (truthy_num (job_max_retries job) = None ->
   JS.parseInt (getConfig db "max-retries" "3") = None ->
   snd (enqueue uuid now job db) = db /\
   forall x, fst (enqueue uuid now job db) <> Enqueued x) /\
  (forall cmd m,
     ~ In i (ids (jobs db)) ->
     truthy_text (job_command job) = Some cmd ->
     resolve_max_retries job db = Some m ->
     fst (enqueue uuid now job db) = Enqueued i /\
     select_by_id i (jobs (snd (enqueue uuid now job db))) =
       Some (mkJob i cmd pending 0 m now now (Some now) None) /\
     (forall i', i' <> i ->
        select_by_id i' (jobs (snd (enqueue uuid now job db))) =
        select_by_id i' (jobs db)) /\
     config (snd (enqueue uuid now job db)) = config db).
Proof.
  intro i. split; [|split].
  - intro Hin. unfold enqueue. fold i.
    destruct (truthy_text (job_command job));
      [|split; [reflexivity | discriminate]].
    destruct (resolve_max_retries job db);
      [|split; [reflexivity | discriminate]].
    rewrite (existsb_has_id_true i _ Hin). split; [reflexivity | discriminate].
  - intros Hm Hp. unfold enqueue.
    destruct (truthy_text (job_command job));
      [|split; [reflexivity | discriminate]].
    unfold resolve_max_retries. rewrite Hm, Hp.
    split; [reflexivity | discriminate].
  - intros cmd m Hn Hc Hm. unfold enqueue. fold i. rewrite Hc, Hm.
    destruct (existsb (has_id i) (jobs db)) eqn:E.
    + exfalso. apply existsb_exists in E. destruct E as [k [Hk Hid]].
      apply has_id_true in Hid. apply Hn. rewrite <- Hid.
      unfold ids. now apply in_map.
    + cbn [fst snd jobs config]. split; [reflexivity|]. split.
      * now apply select_by_id_last.
      * split; [|reflexivity]. intros i' Hne.
        apply select_by_id_other. cbn. congruence.
Qed.

Lemma enqueue_insert_or_refuse_witness :
  snd (enqueue "u-9" 5000
         (mkPayload (Some "job1") (Some "echo again") (Some 7)) fixture_store)
  = fixture_store.
Proof.
  destruct (enqueue_insert_or_refuse "u-9" 5000
              (mkPayload (Some "job1") (Some "echo again") (Some 7))
              fixture_store) as [H _].
  apply H. vm_compute. now left.
Defined.

(** X15. A job that was just enqueued can be claimed at once, at any
    instant; when nothing else in the table is eligible, the next claim
    returns it. *)
Theorem enqueue_then_claim (uuid : string) (now now' : Z) (job : Payload)
    (db : DB) (i : string) (db' : DB) :
  pk (jobs db) ->
  enqueue uuid now job db = (Enqueued i, db') ->
  (exists j, select_by_id i (jobs db') = Some j /\ Eligible now' j) /\
  ((forall k, In k (jobs db) -> ~ Eligible now' k) ->
   fst (claimTx now' (jobs db')) = Some i).
Proof.
  intros Hpk H.
  pose proof (enqueue_pk uuid now job db Hpk) as Hpk'. rewrite H in Hpk'.
  cbn [snd] in Hpk'.
  apply enqueue_inv in H. destruct H as [cmd [m [_ [_ [Hn [_ ->]]]]]].
  cbn [jobs] in *. split.
  - eexists. split; [now apply select_by_id_last|]. now left.
  - intro Hno.
    set (x := mkJob i cmd pending 0 m now now (Some now) None) in *.
    assert (F : filter (eligible now') (jobs db ++ [x]) = [x]).
    { rewrite filter_app.
      assert (F0 : filter (eligible now') (jobs db) = []).
      { destruct (filter (eligible now') (jobs db)) as [|k l] eqn:E;
          [reflexivity|].
        exfalso. assert (X : In k (filter (eligible now') (jobs db)))
          by (rewrite E; now left).
        apply filter_In in X. destruct X as [X1 X2].
        apply (Hno k X1). now apply eligible_spec. }
      rewrite F0. reflexivity. }
    assert (O : oldest (filter (eligible now') (jobs db ++ [x])) = Some x)
      by now rewrite F.
    destruct (claimTx_pk now' _ x Hpk' O) as [_ [_ [_ [_ E]]]].
    now rewrite E.
Qed.

Lemma enqueue_then_claim_witness :
  fst (claimTx 7000
         (jobs (snd (enqueue "u-1" 10
                       (mkPayload (Some "job1") (Some "echo hi") None)
                       (initDb emptyDb)))))
  = Some "job1".
Proof.
  destruct (enqueue_then_claim "u-1" 10 7000
              (mkPayload (Some "job1") (Some "echo hi") None)
              (initDb emptyDb) "job1"
              (snd (enqueue "u-1" 10
                      (mkPayload (Some "job1") (Some "echo hi") None)
                      (initDb emptyDb)))) as [_ H].
  - constructor.
  - reflexivity.
  - apply H. intros k [].
Defined.





(** ** The PID file *)

Lemma append_empty s : String.append s "" = s.
Proof. induction s as [|c s IH]; simpl; [reflexivity | now rewrite IH]. Qed.

Lemma append_assoc a b c :
  String.append (String.append a b) c = String.append a (String.append b c).
Proof. induction a as [|x a IH]; simpl; [reflexivity | now rewrite IH]. Qed.

Lemma white_newline : JS.isWhite newline = true.
Proof. reflexivity. Qed.

Lemma not_white_not_separator c :
  JS.isWhite c = false ->
  Ascii.eqb c newline = false /\ Ascii.eqb c carriage_return = false.
Proof.
  intro H. split.
  - destruct (Ascii.eqb c newline) eqn:E; [|reflexivity].
    apply Ascii.eqb_eq in E. subst c. discriminate.
  - destruct (Ascii.eqb c carriage_return) eqn:E; [|reflexivity].
    apply Ascii.eqb_eq in E. subst c. discriminate.
Qed.

Lemma plain_cons c r : plain (String c r) = true -> JS.isWhite c = false /\ plain r = true.
Proof.
  simpl. intro H. apply andb_true_iff in H. destruct H as [H1 H2].
  split; [now apply negb_true_iff | exact H2].
Qed.

Lemma digits_plain d : plain (NilEmpty.string_of_uint d) = true.
Proof. induction d; simpl; auto. Qed.

Lemma show_pid_plain pid : plain (show_pid pid) = true /\ show_pid pid <> "".
Proof.
  unfold show_pid, NilZero.string_of_uint. split.
  - destruct (N.to_uint pid); try apply digits_plain. reflexivity.
  - destruct (N.to_uint pid); simpl; discriminate.
Qed.

Lemma skipWhite_plain s rest :
  plain s = true -> s <> "" ->
  JS.skipWhite (String.append s rest) = String.append s rest.
Proof.
  destruct s as [|c s]; [contradiction|]. intros H _.
  apply plain_cons in H. destruct H as [H _]. simpl. now rewrite H.
Qed.

Lemma trimEnd_plain s rest :
  plain s = true ->
  trimEnd (String.append s rest) = String.append s (trimEnd rest).
Proof.
  induction s as [|c s IH]; simpl; intro H; [reflexivity|].
  apply andb_true_iff in H. destruct H as [H1 H2].
  apply negb_true_iff in H1. rewrite H1. simpl. now rewrite IH.
Qed.

Lemma join_lines_cons x y r :
  join_lines (x :: y :: r) =
  String.append x (String newline (join_lines (y :: r))).
Proof. reflexivity. Qed.

Lemma join_lines_nonempty x r : x <> "" -> join_lines (x :: r) <> "".
Proof.
  intro H. destruct r as [|y r].
  - exact H.
  - rewrite join_lines_cons. destruct x; [contradiction | discriminate].
Qed.

(** [trim] takes the final newline off what [startWorkers] writes. *)
Lemma trim_pid_file x r :
  Forall (fun l => plain l = true /\ l <> "") (x :: r) ->
  trim (String.append (join_lines (x :: r)) (String newline ""))
  = join_lines (x :: r).
Proof.
  intro H. unfold trim.
  assert (S : JS.skipWhite (String.append (join_lines (x :: r)) (String newline ""))
              = String.append (join_lines (x :: r)) (String newline "")).
  { inversion H as [|? ? [Hx1 Hx2] _]; subst.
    destruct r as [|y r].
    - now apply skipWhite_plain.
    - rewrite join_lines_cons, append_assoc. now apply skipWhite_plain. }
  rewrite S. clear S.
  revert x H. induction r as [|y r IH]; intros x H.
  - inversion H as [|? ? [Hx1 Hx2] _]; subst. simpl join_lines.
    rewrite trimEnd_plain by assumption. simpl. apply append_empty.
  - inversion H as [|? ? [Hx1 Hx2] Hr]; subst.
    rewrite join_lines_cons, append_assoc.
    rewrite trimEnd_plain by assumption. f_equal.
    change (String.append (String newline (join_lines (y :: r))) (String newline ""))
      with (String newline (String.append (join_lines (y :: r)) (String newline ""))).
    cbn [trimEnd]. rewrite (IH y Hr).
    assert (N : String.eqb (join_lines (y :: r)) "" = false).
    { apply String.eqb_neq. apply join_lines_nonempty.
      inversion Hr as [|? ? [_ Hy] _]. exact Hy. }
    rewrite N, andb_false_r. reflexivity.
Qed.

Lemma split_lines_nonnil s : split_lines s <> [].
Proof.
  destruct s as [|c r]; simpl; [discriminate|].
  destruct (split_lines r); [discriminate|].
  destruct (Ascii.eqb c newline); [discriminate|].
  destruct (_ && _); discriminate.
Qed.

Lemma split_newline_nonnil s : split_newline s <> [].
Proof.
  destruct s as [|c r]; simpl; [discriminate|].
  destruct (split_newline r); [discriminate|].
  destruct (Ascii.eqb c newline); discriminate.
Qed.

Lemma split_lines_plain s rest :
  plain s = true ->
  split_lines (String.append s rest) =
  match split_lines rest with
  | piece :: pieces => String.append s piece :: pieces
  | [] => [s]
  end.
Proof.
  induction s as [|c s IH]; intro H.
  - simpl. pose proof (split_lines_nonnil rest) as N.
    destruct (split_lines rest); [contradiction | reflexivity].
  - apply plain_cons in H. destruct H as [H1 H2].
    destruct (not_white_not_separator c H1) as [N1 N2].
    cbn [String.append split_lines]. rewrite (IH H2), N1, N2. cbn [andb].
    destruct (split_lines rest); reflexivity.
Qed.

Lemma split_newline_plain s rest :
  plain s = true ->
  split_newline (String.append s rest) =
  match split_newline rest with
  | piece :: pieces => String.append s piece :: pieces
  | [] => [s]
  end.
Proof.
  induction s as [|c s IH]; intro H.
  - simpl. pose proof (split_newline_nonnil rest) as N.
    destruct (split_newline rest); [contradiction | reflexivity].
  - apply plain_cons in H. destruct H as [H1 H2].
    destruct (not_white_not_separator c H1) as [N1 _].
    cbn [String.append split_newline]. rewrite (IH H2), N1.
    destruct (split_newline rest); reflexivity.
Qed.

Lemma split_lines_join x r :
  Forall (fun l => plain l = true /\ l <> "") (x :: r) ->
  split_lines (join_lines (x :: r)) = x :: r.
Proof.
  revert x. induction r as [|y r IH]; intros x H;
    inversion H as [|? ? [Hx1 Hx2] Hr]; subst.
  - simpl join_lines. rewrite <- (append_empty x) at 1.
    rewrite split_lines_plain by assumption. simpl. now rewrite append_empty.
  - rewrite join_lines_cons, split_lines_plain by assumption.
    cbn [split_lines]. rewrite (IH y Hr).
    rewrite Ascii.eqb_refl. now rewrite append_empty.
Qed.

Lemma split_newline_join x r :
  Forall (fun l => plain l = true /\ l <> "") (x :: r) ->
  split_newline (join_lines (x :: r)) = x :: r.
Proof.
  revert x. induction r as [|y r IH]; intros x H;
    inversion H as [|? ? [Hx1 Hx2] Hr]; subst.
  - simpl join_lines. rewrite <- (append_empty x) at 1.
    rewrite split_newline_plain by assumption. simpl. now rewrite append_empty.
  - rewrite join_lines_cons, split_newline_plain by assumption.
    cbn [split_newline]. rewrite (IH y Hr).
    rewrite Ascii.eqb_refl. now rewrite append_empty.
Qed.

Lemma filter_nonempty_all l :
  Forall (fun s => plain s = true /\ s <> "") l -> filter nonempty l = l.
Proof.
  induction 1 as [|s l [_ Hs] _ IH]; simpl; [reflexivity|].
  unfold nonempty at 1. apply String.eqb_neq in Hs. rewrite Hs. simpl.
  now rewrite IH.
Qed.

(** What is read back from the file written for the lines [l]. *)
Lemma read_pid_file l :
  Forall (fun s => plain s = true /\ s <> "") l ->
  let content := String.append (join_lines l) (String newline "") in
  filter nonempty (split_lines (trim content)) = l /\
  filter nonempty (split_newline (trim content)) = l.
Proof.
  intros H content. unfold content. destruct l as [|x r].
  - split; reflexivity.
  - rewrite trim_pid_file by assumption.
    rewrite split_lines_join, split_newline_join by assumption.
    split; now apply filter_nonempty_all.
Qed.

(** X18. [worker stop] signals the pids the last [worker start] forked,
    each once and in the order they were forked, [status] shows the same
    pids, and the PID file is gone afterwards, so that a second [worker
    stop] signals no one.  A count below one forks no worker.  When the
    PID file cannot be written, it is left as it was. *)
Theorem pid_file_round_trip (fork : nat -> N) (count : Z) (db : DB)
    (pid_file : option string) :
  let started := startWorkers fork true count pid_file in
  fst started = map fork (seq 0 (Z.to_nat count)) /\
  fst (worker_stop (snd started)) = map show_pid (fst started) /\
  snd (status db (snd started)) = Some (map show_pid (fst started)) /\
  worker_stop (snd (worker_stop (snd started))) = ([], None) /\
  (count < 1 -> fst started = []) /\
  snd (startWorkers fork false count pid_file) = pid_file.
Proof.
  intro started. unfold started, startWorkers. cbn [fst snd].
  set (pids := map fork (seq 0 (Z.to_nat count))).
  assert (P : Forall (fun s => plain s = true /\ s <> "") (map show_pid pids)).
  { apply Forall_forall. intros s Hs. apply in_map_iff in Hs.
    destruct Hs as [pid [<- _]]. apply show_pid_plain. }
  destruct (read_pid_file (map show_pid pids) P) as [R1 R2].
  split; [reflexivity|]. split; [exact R1|]. split.
  - unfold status. cbn [snd option_map]. now rewrite R2.
  - split; [reflexivity|]. split; [|reflexivity].
    intro Hc. unfold pids. replace (Z.to_nat count) with 0%nat by lia.
    reflexivity.
Qed.

Lemma pid_file_round_trip_witness :
  fst (startWorkers (fun k => N.of_nat (4000 + k)) true 0 None) = [].
Proof.
  destruct (pid_file_round_trip (fun k => N.of_nat (4000 + k)) 0 emptyDb None)
    as [_ [_ [_ [_ [H _]]]]].
  apply H. lia.
Defined.

(** ** The batch of enqueue_jobs.js *)

Lemma resolve_max_retries_config job db db2 :
  config db2 = config db ->
  resolve_max_retries job db2 = resolve_max_retries job db.
Proof.
  intro H. unfold resolve_max_retries, getConfig. now rewrite H.
Qed.

Lemma enqueue_ids_mono uuid now job db i :
  In i (ids (jobs db)) -> In i (ids (jobs (snd (enqueue uuid now job db)))).
Proof.
  intro H. unfold enqueue.
  destruct (truthy_text (job_command job)); [|exact H].
  destruct (resolve_max_retries job db); [|exact H].
  destruct (existsb _ (jobs db)); [exact H|].
  cbn [snd jobs]. unfold ids. rewrite map_app. apply in_or_app. now left.
Qed.

Lemma enqueue_each_mono env k js db :
  config (snd (enqueue_each env k js db)) = config db /\
  forall i, In i (ids (jobs db)) ->
            In i (ids (jobs (snd (enqueue_each env k js db)))).
Proof.
  revert k db. induction js as [|job js IH]; intros k db; cbn [enqueue_each].
  - split; auto.
  - pose proof (enqueue_config (fst (env k)) (snd (env k)) job db) as C.
    pose proof (enqueue_ids_mono (fst (env k)) (snd (env k)) job db) as M.
    destruct (enqueue (fst (env k)) (snd (env k)) job db) as [o db1].
    cbn [snd] in *.
    destruct (IH (S k) db1) as [C1 M1].
    destruct (enqueue_each env (S k) js db1) as [os db2]. cbn [snd] in *.
    split; [congruence|]. intros i Hi. apply M1, M, Hi.
Qed.

(** A payload with an id of its own is refused on any later store
    that still holds what its first submission left. *)
Lemma enqueue_refused_again uuid now uuid' now' job db db2 i :
  truthy_text (job_id job) = Some i ->
  (forall x, In x (ids (jobs (snd (enqueue uuid now job db)))) ->
             In x (ids (jobs db2))) ->
  config db2 = config db ->
  snd (enqueue uuid' now' job db2) = db2 /\
  forall x, fst (enqueue uuid' now' job db2) <> Enqueued x.
Proof.
  intros Hi Hsub Hcfg. unfold enqueue in *. rewrite Hi in *.
  destruct (truthy_text (job_command job)) as [cmd|];
    [|split; [reflexivity | discriminate]].
  rewrite (resolve_max_retries_config job db db2 Hcfg).
  destruct (resolve_max_retries job db) as [m|];
    [|split; [reflexivity | discriminate]].
  assert (X : In i (ids (jobs db2))).
  { apply Hsub. destruct (existsb (has_id i) (jobs db)) eqn:E.
    - cbn [snd]. apply existsb_exists in E. destruct E as [j [Hj Hid]].
      apply has_id_true in Hid. rewrite <- Hid. unfold ids. now apply in_map.
    - cbn [snd jobs]. unfold ids. rewrite map_app. apply in_or_app.
      right. now left. }
  rewrite (existsb_has_id_true i _ X). split; [reflexivity | discriminate].
Qed.

Lemma enqueue_each_settled env k js db :
  Forall (fun job => truthy_text (job_id job) <> None) js ->
  forall job db2 uuid' now',
    In job js ->
    (forall x, In x (ids (jobs (snd (enqueue_each env k js db)))) ->
               In x (ids (jobs db2))) ->
    config db2 = config db ->
    snd (enqueue uuid' now' job db2) = db2 /\
    forall x, fst (enqueue uuid' now' job db2) <> Enqueued x.
Proof.
  revert k db. induction js as [|p js IH]; intros k db Hall job db2 u' n' Hin Hsub Hcfg.
  - contradiction.
  - inversion Hall as [|? ? Hp Hjs]; subst. cbn [enqueue_each] in Hsub.
    pose proof (enqueue_config (fst (env k)) (snd (env k)) p db) as C.
    destruct (enqueue (fst (env k)) (snd (env k)) p db) as [o db1] eqn:E.
    cbn [snd] in C.
    destruct (enqueue_each_mono env (S k) js db1) as [C1 M1].
    pose proof (IH (S k) db1 Hjs job db2 u' n') as IH'.
    destruct (enqueue_each env (S k) js db1) as [os dbf]. cbn [snd] in *.
    destruct Hin as [<-|Hin].
    + destruct (truthy_text (job_id p)) as [i|] eqn:Hi; [|contradiction].
      apply (enqueue_refused_again (fst (env k)) (snd (env k)) u' n' p db db2 i);
        auto.
      intros x Hx. apply Hsub, M1. now rewrite E in Hx.
    + apply IH'; auto. congruence.
Qed.

Lemma enqueue_each_noop env k js db :
  (forall job uuid now, In job js ->
     snd (enqueue uuid now job db) = db /\
     forall x, fst (enqueue uuid now job db) <> Enqueued x) ->
  snd (enqueue_each env k js db) = db /\
  Forall (fun o => forall x, o <> Enqueued x) (fst (enqueue_each env k js db)).
Proof.
  revert k. induction js as [|p js IH]; intros k H; cbn [enqueue_each].
  - split; [reflexivity | constructor].
  - destruct (H p (fst (env k)) (snd (env k)) (or_introl eq_refl)) as [H1 H2].
    destruct (enqueue (fst (env k)) (snd (env k)) p db) as [o db1].
    cbn [fst snd] in *. subst db1.
    destruct (IH (S k)) as [I1 I2].
    { intros job u n Hj. apply H. now right. }
    destruct (enqueue_each env (S k) js db) as [os db2]. cbn [fst snd] in *.
    split; [exact I1 | now constructor].
Qed.

(** X19. The script enqueues each of its jobs whatever becomes of the
    others, keeps the jobs that were in the table, and leaves the
    configuration alone.  Run a second time, with jobs that carry ids of
    their own, it enqueues nothing and leaves the store exactly as the
    first run left it. *)
Theorem enqueue_jobs_again (env env' : nat -> string * Z) (k k' : nat)
    (js : list Payload) (db : DB) :
  Forall (fun job => truthy_text (job_id job) <> None) js ->
  snd (enqueue_each env' k' js (snd (enqueue_each env k js db)))
    = snd (enqueue_each env k js db) /\
  Forall (fun o => forall x, o <> Enqueued x)
    (fst (enqueue_each env' k' js (snd (enqueue_each env k js db)))) /\
  config (snd (enqueue_each env k js db)) = config db /\
  (forall i, In i (ids (jobs db)) ->
             In i (ids (jobs (snd (enqueue_each env k js db))))).
Proof.
  intro Hall.
  destruct (enqueue_each_mono env k js db) as [C M].
  assert (N := enqueue_each_noop env' k' js (snd (enqueue_each env k js db))).
  destruct N as [N1 N2].
  { intros job u n Hj.
    apply (enqueue_each_settled env k js db Hall job _ u n Hj); auto. }
  repeat split; auto.
Qed.

Lemma enqueue_jobs_again_witness :
  let env := fun k : nat => ("u", Z.of_nat k) in
  snd (enqueue_each env 5 script_jobs
         (snd (enqueue_each env 0 script_jobs (initDb emptyDb))))
  = snd (enqueue_each env 0 script_jobs (initDb emptyDb)).
Proof.
  intro env.
  apply (enqueue_jobs_again env env 0 5 script_jobs (initDb emptyDb)).
  unfold script_jobs. repeat constructor; discriminate.
Defined.

(** The five jobs of the script, enqueued in order on a fresh
    store. *)
Example script_jobs_enqueued :
  let env := fun k : nat => ("u", Z.of_nat k) in
  fst (enqueue_each env 0 script_jobs (initDb emptyDb))
  = [Enqueued "job1"; Enqueued "job2"; Enqueued "job3";
     Enqueued "job4"; Enqueued "job5"] /\
  map max_retries (jobs (snd (enqueue_each env 0 script_jobs (initDb emptyDb))))
  = [3; 2; 2; 2; 2].
Proof. vm_compute. split; reflexivity. Qed.

(** ** Counting the failed runs *)




(** ** Terminal rows and serial claims at work *)

Lemma terminal_row_kept_witness :
  let done := mkJob "job1" "echo Hello from job1" completed 0 3 10 1100 (Some 10) None in
  select_by_id "job1"
    (jobs (run (Recover 0 9000) (mkDB [done] [])))
  = Some done.
Proof.
  intro done.
  apply (terminal_row_kept (Recover 0 9000) (mkDB [done] []) "job1" done).
  - repeat constructor. simpl. tauto.
  - reflexivity.
  - now left.
  - discriminate.
Defined.

Lemma claims_at_most_once_witness :
  let nows := [1000; 1001; 1002] in
  (granted "job1" (fst (claims nows (jobs fixture_store))) <= 1)%nat.
Proof.
  intro nows.
  apply (claims_at_most_once nows (jobs fixture_store) "job1").
  vm_compute. repeat constructor; simpl; intuition discriminate.
Defined.
